(** * pr_behavior_tree: the coroutine behaviour tree of [act.py]

    A shallow embedding of [scripts/pr_behavior_tree/act.py].  Every act
    owns a Python generator ([self.iterator = self.tick()]); the generators
    are modelled as explicit resumable state machines, and one call of
    [iterator.next()] is the function [next] below.  The [while True] loops
    of [Parallel.tick] and [Loop.tick] can spin without ever yielding, so
    [next] takes fuel and reports [Diverge] when it runs out. *)

From Stdlib Require Import ZArith List Lia Bool.
From stdpp Require Import base option list gmap strings.

Set Warnings "-register-all".

Local Open Scope Z_scope.
Local Open Scope nat_scope.

(** ** Statuses *)

(** [class ActStatus]: SUCCESS = 0, FAIL = 1, RUN = 2. *)
Inductive ActStatus := SUCCESS | FAIL | RUN.

Definition ActStatus_value (s : ActStatus) : Z :=
  match s with SUCCESS => 0%Z | FAIL => 1%Z | RUN => 2%Z end.

Definition terminal (s : ActStatus) : bool :=
  match s with RUN => false | _ => true end.

(** What one [iterator.next()] call does: it hands back a yielded status,
    raises [StopIteration] (the generator has finished), or never returns
    (the model ran out of fuel). *)
Inductive Outcome := Yield (s : ActStatus) | StopIteration | Diverge.

(** ** Generator objects

    The control state of a generator created by some [tick()]:
    - [GFresh]: created, body not started;
    - [GChild i]: suspended at a [yield] inside [for status in child.iterator]
      for the child at index [i] of [self.children];
    - [GLast]: suspended at a [yield] that is followed by [return] or by the
      end of the body;
    - [GDone]: finished, every further [next()] raises [StopIteration]. *)
Inductive Gen := GFresh | GChild (i : nat) | GLast | GDone.

Section Acts.

(** The world the wrapped leaf functions act on (their side effects). *)
Context {W : Type}.

(** ** Acts

    One constructor per class.  [children] is [self.children], [iterator] is
    [self.iterator], [current_child] is [self.current_child] (an index into
    [children] standing for the reference to that child, [None] for Python's
    [None]), [num_iter] and [iter] are the attributes of [Loop], [fn] is the
    wrapped function of [Wrap].  [self.name] is a display label only and is
    left out. *)
Inductive Act :=
| Select (children : list Act) (iterator : Gen) (current_child : option nat)
| Sequence (children : list Act) (iterator : Gen) (current_child : option nat)
| Parallel (children : list Act) (iterator : Gen)
| Loop (children : list Act) (iterator : Gen) (num_iter iter : Z)
       (current_child : option nat)
| IgnoreFail (children : list Act) (iterator : Gen) (current_child : option nat)
| Not (children : list Act) (iterator : Gen) (current_child : option nat)
| Wrap (fn : W -> ActStatus * W) (children : list Act) (iterator : Gen).

Definition children (a : Act) : list Act :=
  match a with
  | Select cs _ _ | Sequence cs _ _ | Parallel cs _ | Loop cs _ _ _ _
  | IgnoreFail cs _ _ | Not cs _ _ | Wrap _ cs _ => cs
  end.

Definition iterator (a : Act) : Gen :=
  match a with
  | Select _ g _ | Sequence _ g _ | Parallel _ g | Loop _ g _ _ _
  | IgnoreFail _ g _ | Not _ g _ | Wrap _ _ g => g
  end.

(** [self.current_child]; [Parallel] and [Wrap] have no such attribute. *)
Definition current_child (a : Act) : option nat :=
  match a with
  | Select _ _ cc | Sequence _ _ cc | Loop _ _ _ _ cc
  | IgnoreFail _ _ cc | Not _ _ cc => cc
  | Parallel _ _ | Wrap _ _ _ => None
  end.

(** *** Constructors: the [__init__] methods, given an explicit child list *)

Definition new_Select (cs : list Act) : Act := Select cs GFresh None.
Definition new_Sequence (cs : list Act) : Act := Sequence cs GFresh None.
Definition new_Parallel (cs : list Act) : Act := Parallel cs GFresh.
(** [self.num_iter = num_iter; self.iter = 1; self.current_child = None] *)
Definition new_Loop (cs : list Act) (num_iter : Z) : Act :=
  Loop cs GFresh num_iter 1%Z None.
Definition new_IgnoreFail (cs : list Act) : Act := IgnoreFail cs GFresh None.
Definition new_Not (cs : list Act) : Act := Not cs GFresh None.
Definition new_Wrap (fn : W -> ActStatus * W) : Act := Wrap fn [] GFresh.

(** *** [reset]

    [Act.reset]: [self.iterator = self.tick()], then [child.reset()] for every
    child.  [Select] and [Sequence] override it to clear [self.current_child]
    first; [Parallel], [Loop], [IgnoreFail], [Not] and [Wrap] inherit
    [Act.reset] unchanged, so [Loop] keeps [self.iter] and all three keep
    [self.current_child]. *)
Fixpoint reset (a : Act) : Act :=
  match a with
  | Select cs _ _ => Select (map reset cs) GFresh None
  | Sequence cs _ _ => Sequence (map reset cs) GFresh None
  | Parallel cs _ => Parallel (map reset cs) GFresh
  | Loop cs _ n it cc => Loop (map reset cs) GFresh n it cc
  | IgnoreFail cs _ cc => IgnoreFail (map reset cs) GFresh cc
  | Not cs _ cc => Not (map reset cs) GFresh cc
  | Wrap fn cs _ => Wrap fn (map reset cs) GFresh
  end.

(** *** [suspend] and [resume]

    No [suspend] or [resume] method changes any state: [Act.suspend] is
    [pass], and the composites only forward the call.  What can be observed
    is which nodes the call reaches, so both are modelled by their call
    trace: the paths (child indices from the receiver down) of the nodes
    whose method runs, in call order.  The receiver itself is the path [[]]. *)
Definition forward_to (traces : list (list (list nat))) (i : nat)
  : list (list nat) :=
  match traces !! i with
  | Some t => map (cons i) t
  | None => []
  end.

Definition forward_current (traces : list (list (list nat)))
    (cc : option nat) : list (list nat) :=
  match cc with
  | Some i => forward_to traces i     (* if self.current_child: ... *)
  | None => []
  end.

Definition forward_all (traces : list (list (list nat))) : list (list nat) :=
  concat (imap (fun i t => map (cons i) t) traces).

Fixpoint suspend (a : Act) : list (list nat) :=
  [] :: match a with
        | Select cs _ cc | Sequence cs _ cc | Loop cs _ _ _ cc
        | IgnoreFail cs _ cc | Not cs _ cc =>
            forward_current (map suspend cs) cc
        | Parallel cs _ => forward_all (map suspend cs)
        | Wrap _ _ _ => []
        end.

Fixpoint resume (a : Act) : list (list nat) :=
  [] :: match a with
        | Select cs _ cc | Sequence cs _ cc | Loop cs _ _ _ cc
        | IgnoreFail cs _ cc | Not cs _ cc =>
            forward_current (map resume cs) cc
        | Parallel cs _ => forward_all (map resume cs)
        | Wrap _ _ _ => []
        end.

(** ** The generator bodies

    Every body is written against [step], the function that performs
    [child.iterator.next()] on one child and hands back the outcome, the
    child as it is afterwards, and the world. *)
Section Ticks.

Variable step : Act -> W -> Outcome * Act * W.

(** How a pass of [for child in self.children] ends: at a [yield] (or stuck
    in a child that never returns), or by running off the end of the list. *)
Inductive ForResult :=
| Yielded (o : Outcome) (cs : list Act) (g : Gen) (cc : option nat) (w : W)
| Completed (cs : list Act) (cc : option nat) (w : W).

(** The loop nest shared by [Select], [Sequence], [Loop], [IgnoreFail] and
    [Not]:
<<
    for child in self.children:
        self.current_child = child        # only where [assign] is true
        for status in child.iterator:
            <yield what [on_status status] says, and return if it says so>
        <after_child>                     # Loop: child.reset()
>>
    [pre] holds the children already left behind, [rest] starts with the
    child the loop is at.  [enter] is false when the body is resumed inside
    the inner loop, where the assignment of the outer loop is not run again.
    The inner [for] ends when the child's generator raises [StopIteration]. *)
Section ForChildren.

Variable on_status : ActStatus -> ActStatus * bool.
Variable after_child : Act -> Act.
Variable assign : bool.

Fixpoint for_children (enter : bool) (pre rest : list Act)
    (cc : option nat) (w : W) : ForResult :=
  match rest with
  | [] => Completed pre cc w
  | child :: rest' =>
      let cc := if enter && assign then Some (length pre) else cc in
      match step child w with
      | (Yield s, child', w') =>
          let '(s', ret) := on_status s in
          Yielded (Yield s') (pre ++ child' :: rest')
                  (if ret then GLast else GChild (length pre)) cc w'
      | (StopIteration, child', w') =>
          for_children true (pre ++ [after_child child']) rest' cc w'
      | (Diverge, child', w') =>
          Yielded Diverge (pre ++ child' :: rest') (GChild (length pre)) cc w'
      end
  end.

(** Running the loop nest from where the generator stands.  A fresh
    generator enters the outer loop at the first child; one suspended inside
    child [i] continues the inner loop there. *)
Definition run_children (g : Gen) (cs : list Act) (cc : option nat) (w : W)
  : ForResult :=
  match g with
  | GChild i => for_children false (take i cs) (drop i cs) cc w
  | _ => for_children true [] cs cc w
  end.

End ForChildren.

(** [Select.tick], lines 62-73. *)
Definition Select_status (status : ActStatus) : ActStatus * bool :=
  match status with
  | RUN => (RUN, false)            (* yield status *)
  | FAIL => (RUN, false)           (* yield ActStatus.RUN *)
  | SUCCESS => (SUCCESS, true)     (* yield status; return *)
  end.

Definition Select_tick (cs : list Act) (g : Gen) (cc : option nat) (w : W)
  : Outcome * list Act * Gen * option nat * W :=
  match g with
  | GDone | GLast => (StopIteration, cs, GDone, cc, w)
  | _ =>
      match run_children Select_status id true g cs cc w with
      | Yielded o cs' g' cc' w' => (o, cs', g', cc', w')
      | Completed cs' cc' w' => (Yield FAIL, cs', GLast, cc', w')
      end
  end.

(** [Sequence.tick], lines 97-109.  The loop assigns the local name
    [current_child], not [self.current_child]. *)
Definition Sequence_status (status : ActStatus) : ActStatus * bool :=
  match status with
  | RUN => (RUN, false)            (* yield status *)
  | FAIL => (FAIL, true)           (* yield ActStatus.FAIL; return *)
  | SUCCESS => (RUN, false)        (* yield ActStatus.RUN *)
  end.

Definition Sequence_tick (cs : list Act) (g : Gen) (cc : option nat) (w : W)
  : Outcome * list Act * Gen * option nat * W :=
  match g with
  | GDone | GLast => (StopIteration, cs, GDone, cc, w)
  | _ =>
      match run_children Sequence_status id false g cs cc w with
      | Yielded o cs' g' cc' w' => (o, cs', g', cc', w')
      | Completed cs' cc' w' => (Yield SUCCESS, cs', GLast, cc', w')
      end
  end.

(** [IgnoreFail.tick], lines 208-215: no [return] after any [yield]. *)
Definition IgnoreFail_status (status : ActStatus) : ActStatus * bool :=
  match status with
  | FAIL => (SUCCESS, false)       (* yield ActStatus.SUCCESS *)
  | _ => (status, false)           (* yield status *)
  end.

Definition IgnoreFail_tick (cs : list Act) (g : Gen) (cc : option nat) (w : W)
  : Outcome * list Act * Gen * option nat * W :=
  match g with
  | GDone | GLast => (StopIteration, cs, GDone, cc, w)
  | _ =>
      match run_children IgnoreFail_status id false g cs cc w with
      | Yielded o cs' g' cc' w' => (o, cs', g', cc', w')
      | Completed cs' cc' w' => (Yield SUCCESS, cs', GLast, cc', w')
      end
  end.

(** [Not.tick], lines 235-244. *)
Definition Not_status (status : ActStatus) : ActStatus * bool :=
  match status with
  | FAIL => (SUCCESS, false)       (* yield ActStatus.SUCCESS *)
  | SUCCESS => (FAIL, false)       (* yield ActStatus.FAIL *)
  | RUN => (RUN, false)            (* yield status *)
  end.

Definition Not_tick (cs : list Act) (g : Gen) (cc : option nat) (w : W)
  : Outcome * list Act * Gen * option nat * W :=
  match g with
  | GDone | GLast => (StopIteration, cs, GDone, cc, w)
  | _ =>
      match run_children Not_status id false g cs cc w with
      | Yielded o cs' g' cc' w' => (o, cs', g', cc', w')
      | Completed cs' cc' w' => (Yield SUCCESS, cs', GLast, cc', w')
      end
  end.

(** [Loop.tick], lines 170-188.  [fuel] bounds the turns of [while True]. *)
Definition Loop_status (status : ActStatus) : ActStatus * bool :=
  match status with
  | RUN => (RUN, false)            (* yield status *)
  | SUCCESS => (RUN, false)        (* yield ActStatus.RUN *)
  | FAIL => (FAIL, true)           (* yield ActStatus.FAIL; return *)
  end.

(** [self.num_iter != -1 and self.iter >= self.num_iter] *)
Definition Loop_finished (num_iter iter : Z) : bool :=
  negb (num_iter =? -1)%Z && (num_iter <=? iter)%Z.

Fixpoint Loop_while (fuel : nat) (num_iter iter : Z) (cs : list Act)
    (cc : option nat) (w : W) : Outcome * list Act * Gen * Z * option nat * W :=
  match fuel with
  | 0 => (Diverge, cs, GFresh, iter, cc, w)
  | S fuel' =>
      if Loop_finished num_iter iter
      then (Yield SUCCESS, cs, GLast, iter, cc, w)
      else
        match for_children Loop_status reset false true [] cs cc w with
        | Yielded o cs' g' cc' w' => (o, cs', g', iter, cc', w')
        | Completed cs' cc' w' =>
            Loop_while fuel' num_iter (iter + 1)%Z cs' cc' w'  (* self.iter += 1 *)
        end
  end.

Definition Loop_tick (fuel : nat) (num_iter iter : Z) (cs : list Act)
    (g : Gen) (cc : option nat) (w : W)
  : Outcome * list Act * Gen * Z * option nat * W :=
  match g with
  | GDone | GLast => (StopIteration, cs, GDone, iter, cc, w)
  | GFresh => Loop_while fuel num_iter iter cs cc w
  | GChild i =>
      match run_children Loop_status reset false (GChild i) cs cc w with
      | Yielded o cs' g' cc' w' => (o, cs', g', iter, cc', w')
      | Completed cs' cc' w' =>
          Loop_while fuel num_iter (iter + 1)%Z cs' cc' w'
      end
  end.

(** [Parallel.tick], lines 131-148.  One pass of the [for] inside the [try]:
    it ends at [yield ActStatus.SUCCESS], or falls out of the loop, either
    at the end of the list or because a child's [next()] raised
    [StopIteration]; the [except] clause then restarts the [while] loop, so
    the children after that child are not reached in this pass. *)
Inductive SweepResult :=
| SweepYield (o : Outcome) (cs : list Act) (num_fails : nat) (w : W)
| SweepOver (cs : list Act) (num_fails : nat) (w : W).

Fixpoint Parallel_for (pre rest : list Act) (num_fails : nat) (w : W)
  : SweepResult :=
  match rest with
  | [] => SweepOver pre num_fails w
  | child :: rest' =>
      match step child w with                       (* child.iterator.next() *)
      | (Yield SUCCESS, child', w') =>
          SweepYield (Yield SUCCESS) (pre ++ child' :: rest') num_fails w'
      | (Yield FAIL, child', w') =>
          Parallel_for (pre ++ [child']) rest' (S num_fails) w'
      | (Yield RUN, child', w') =>
          Parallel_for (pre ++ [child']) rest' num_fails w'
      | (StopIteration, child', w') =>              (* except StopIteration *)
          SweepOver (pre ++ child' :: rest') num_fails w'
      | (Diverge, child', w') =>
          SweepYield Diverge (pre ++ child' :: rest') num_fails w'
      end
  end.

(** The [while True] loop; the last component of the result is [num_fails]
    at the point where the body stopped. *)
Fixpoint Parallel_while (fuel : nat) (cs : list Act) (num_fails : nat) (w : W)
  : Outcome * list Act * Gen * W * nat :=
  match fuel with
  | 0 => (Diverge, cs, GFresh, w, num_fails)
  | S fuel' =>
      if length cs <=? num_fails               (* num_fails >= len(children) *)
      then (Yield FAIL, cs, GLast, w, num_fails)
      else
        match Parallel_for [] cs num_fails w with
        | SweepYield (Yield s) cs' nf w' => (Yield s, cs', GLast, w', nf)
        | SweepYield o cs' nf w' => (o, cs', GFresh, w', nf)
        | SweepOver cs' nf w' => Parallel_while fuel' cs' nf w'    (* continue *)
        end
  end.

Definition Parallel_tick (fuel : nat) (cs : list Act) (g : Gen) (w : W)
  : Outcome * list Act * Gen * W * nat :=
  match g with
  | GFresh => Parallel_while fuel cs 0 w           (* num_fails = 0 *)
  | _ => (StopIteration, cs, GDone, w, 0)
  end.

(** [Wrap.tick], lines 265-266: [yield self.fn()]. *)
Definition Wrap_tick (fn : W -> ActStatus * W) (g : Gen) (w : W)
  : Outcome * Gen * W :=
  match g with
  | GFresh => let '(s, w') := fn w in (Yield s, GLast, w')
  | _ => (StopIteration, GDone, w)
  end.

End Ticks.

(** ** [next]: one call of [a.iterator.next()]

    The spec calls this [advance()].  A node with fuel [S f] runs its
    children with fuel [f] and its own [while] loop for at most [f] turns. *)
Fixpoint next (fuel : nat) (a : Act) (w : W) {struct fuel}
  : Outcome * Act * W :=
  match fuel with
  | 0 => (Diverge, a, w)
  | S f =>
      match a with
      | Select cs g cc =>
          let '(o, cs', g', cc', w') := Select_tick (next f) cs g cc w in
          (o, Select cs' g' cc', w')
      | Sequence cs g cc =>
          let '(o, cs', g', cc', w') := Sequence_tick (next f) cs g cc w in
          (o, Sequence cs' g' cc', w')
      | Parallel cs g =>
          let '(o, cs', g', w', _) := Parallel_tick (next f) f cs g w in
          (o, Parallel cs' g', w')
      | Loop cs g n it cc =>
          let '(o, cs', g', it', cc', w') :=
            Loop_tick (next f) f n it cs g cc w in
          (o, Loop cs' g' n it' cc', w')
      | IgnoreFail cs g cc =>
          let '(o, cs', g', cc', w') := IgnoreFail_tick (next f) cs g cc w in
          (o, IgnoreFail cs' g' cc', w')
      | Not cs g cc =>
          let '(o, cs', g', cc', w') := Not_tick (next f) cs g cc w in
          (o, Not cs' g' cc', w')
      | Wrap fn cs g =>
          let '(o, g', w') := Wrap_tick fn g w in
          (o, Wrap fn cs g', w')
      end
  end.

(** ** Driving a tree

    [for status in tree.iterator] (lines 307-308): call [next()] until it
    raises [StopIteration], collecting what was yielded.  [rounds] bounds the
    number of calls. *)
Inductive DriveEnd := Exhausted | Diverged | OutOfRounds.

Fixpoint drive (rounds fuel : nat) (a : Act) (w : W)
  : list ActStatus * DriveEnd * Act * W :=
  match rounds with
  | 0 => ([], OutOfRounds, a, w)
  | S rounds' =>
      match next fuel a w with
      | (Yield s, a', w') =>
          let '(ss, e, a'', w'') := drive rounds' fuel a' w' in
          (s :: ss, e, a'', w'')
      | (StopIteration, a', w') => ([], Exhausted, a', w')
      | (Diverge, a', w') => ([], Diverged, a', w')
      end
  end.

End Acts.

Arguments Act W : clear implicits.

(** *** Reading the result of a drive *)

Definition drive_statuses {W} (r : list ActStatus * DriveEnd * Act W * W)
  : list ActStatus := r.1.1.1.
Definition drive_end {W} (r : list ActStatus * DriveEnd * Act W * W)
  : DriveEnd := r.1.1.2.
Definition drive_act {W} (r : list ActStatus * DriveEnd * Act W * W)
  : Act W := r.1.2.
Definition drive_world {W} (r : list ActStatus * DriveEnd * Act W * W)
  : W := r.2.

(** *** Leaf functions

    A leaf function is any [W -> ActStatus * W].  The test leaves below act
    on a call log: each call appends the leaf's number, so the log tells how
    often and in which order the wrapped callables ran. *)
Definition always (s : ActStatus) {W} (f : W -> ActStatus * W) : Prop :=
  forall w, (f w).1 = s.

Definition Log := list nat.

Definition always_succeed (k : nat) : Log -> ActStatus * Log :=
  fun log => (SUCCESS, log ++ [k]).

Definition always_fail (k : nat) : Log -> ActStatus * Log :=
  fun log => (FAIL, log ++ [k]).

Definition calls (k : nat) (log : Log) : nat :=
  length (filter (fun j => j = k) log).

(** *** The exhaustion protocol

    [all_raise fuels a w]: each of the successive calls of [next] on [a], one
    per entry of [fuels], raises [StopIteration] and leaves the world as it
    is.  [raises_after_terminal a]: whenever a call of [next] on [a] yields
    SUCCESS or FAIL, all later calls raise. *)
Fixpoint all_raise {W} (fuels : list nat) (a : Act W) (w : W) : Prop :=
  match fuels with
  | [] => True
  | f :: fuels' =>
      exists a', next (S f) a w = (StopIteration, a', w) /\
                 all_raise fuels' a' w
  end.

Definition raises_after_terminal {W} (a : Act W) : Prop :=
  forall fuel w s a' w',
    next fuel a w = (Yield s, a', w') -> terminal s = true ->
    forall fuels w2, all_raise fuels a' w2.

(** The generator has nothing left to yield. *)
Definition finished {W} (a : Act W) : Prop :=
  iterator a = GLast \/ iterator a = GDone.

(** The classes whose [tick] has a [return] (or the end of the body) behind
    every [yield] of SUCCESS or FAIL: all but [IgnoreFail] and [Not]. *)
Definition returns_after_terminal_yield {W} (a : Act W) : bool :=
  match a with
  | IgnoreFail _ _ _ | Not _ _ _ => false
  | _ => true
  end.

(** A status handler that asks for [return] whenever it yields a terminal
    status. *)
Definition returns_on_terminal (on_status : ActStatus -> ActStatus * bool)
  : Prop :=
  forall s, terminal (on_status s).1 = true -> (on_status s).2 = true.

(** *** Fuel

    [refines step1 step2]: wherever [step1] returns, [step2] returns the
    same. *)
Definition refines {W} (step1 step2 : Act W -> W -> Outcome * Act W * W)
  : Prop :=
  forall a w, (step1 a w).1.1 <> Diverge -> step2 a w = step1 a w.

Definition for_result_returns {W} (r : ForResult (W:=W)) : Prop :=
  match r with Yielded Diverge _ _ _ _ => False | _ => True end.

Definition sweep_returns {W} (r : SweepResult (W:=W)) : Prop :=
  match r with SweepYield Diverge _ _ _ => False | _ => True end.

Definition for_result_children {W} (r : ForResult (W:=W)) : list (Act W) :=
  match r with Yielded _ cs _ _ _ | Completed cs _ _ => cs end.

Definition sweep_children {W} (r : SweepResult (W:=W)) : list (Act W) :=
  match r with SweepYield _ cs _ _ | SweepOver cs _ _ => cs end.

(** *** Trees and their fresh state *)

(** No [Loop] at or below this node (the children of a [Wrap] take no part
    in stepping). *)
Fixpoint loop_free {W} (a : Act W) : bool :=
  match a with
  | Loop _ _ _ _ _ => false
  | Select cs _ _ | Sequence cs _ _ | Parallel cs _
  | IgnoreFail cs _ _ | Not cs _ _ => forallb loop_free cs
  | Wrap _ _ _ => true
  end.

(** The state the constructors leave a tree in: every generator fresh,
    [current_child] [None], [iter] 1. *)
Fixpoint pristine {W} (a : Act W) : bool :=
  match a with
  | Select cs GFresh None | Sequence cs GFresh None | Parallel cs GFresh
  | IgnoreFail cs GFresh None | Not cs GFresh None | Wrap _ cs GFresh
  | Loop cs GFresh _ 1%Z None => forallb pristine cs
  | _ => false
  end.

(** [a'] is [a] further along: [reset] takes both to the same tree. *)
Definition same_act {W} (a a' : Act W) : Prop :=
  reset a' = reset a /\ loop_free a' = true.

Definition keeps_acts {W} (step : Act W -> W -> Outcome * Act W * W) : Prop :=
  forall a w, loop_free a = true -> same_act a (step a w).1.2.

(** The world after [j] calls of the leaf function [f]. *)
Fixpoint after_calls {W} (f : W -> ActStatus * W) (j : nat) (w : W) : W :=
  match j with
  | 0 => w
  | S j' => after_calls f j' (f w).2
  end.

(** ** Construction: child lists as shared objects

    [def __init__(self, children = [], ...)]: the default [[]] is one list
    object, built when the [def] statement runs, and every call that omits
    [children] binds the parameter to that same object.  This part models the
    objects involved: list objects by address, and the [children] attribute
    of an act as the address it refers to. *)
Module Construction.

Inductive Class :=
| CAct | CSelect | CSequence | CParallel | CLoop | CIgnoreFail | CNot | CWrap.

(** [lists]: the list objects; [acts]: for each act its class and the list
    object [self.children] refers to; [next_list] and [next_act]: the next
    unused addresses. *)
Record Heap := mkHeap {
  lists : gmap nat (list nat);
  acts : gmap nat (Class * nat);
  next_list : nat;
  next_act : nat
}.

(** The list object that is the default value of [children] in the
    [__init__] of each class (lines 16, 58, 93, 128, 164, 204, 231, 260). *)
Definition default_children (cls : Class) : nat :=
  match cls with
  | CAct => 0 | CSelect => 1 | CSequence => 2 | CParallel => 3
  | CLoop => 4 | CIgnoreFail => 5 | CNot => 6 | CWrap => 7
  end.

Definition classes : list Class :=
  [CAct; CSelect; CSequence; CParallel; CLoop; CIgnoreFail; CNot; CWrap].

(** The heap once the module has been loaded: the eight default lists exist
    and are empty, no act has been built. *)
Definition module_heap : Heap :=
  mkHeap (list_to_map (map (fun c => (default_children c, [])) classes)) ∅ 8 0.

(** How the caller passes [children]. *)
Inductive ChildrenArg := Omitted | PyNone | Given (l : nat).

(** Binding the parameter in the [__init__] of class [cls]; [None] is
    Python's [None].  The subclasses pass their own parameter on to
    [Act.__init__], so the default of [Act.__init__] itself is used only when
    [Act] is instantiated directly. *)
Definition bind_children (cls : Class) (arg : ChildrenArg) : option nat :=
  match arg with
  | Omitted => Some (default_children cls)
  | PyNone => None
  | Given l => Some l
  end.

(** [Act.__init__], lines 19-22: a new list only if [children is None]. *)
Definition Act__init__ (self : nat) (cls : Class) (children : option nat)
    (h : Heap) : Heap :=
  match children with
  | None =>
      let l := next_list h in
      mkHeap (<[l := []]> (lists h)) (<[self := (cls, l)]> (acts h))
             (S l) (next_act h)
  | Some l =>
      mkHeap (lists h) (<[self := (cls, l)]> (acts h))
             (next_list h) (next_act h)
  end.

(** [cls(children)]: allocate the object, run [__init__]. *)
Definition construct (cls : Class) (arg : ChildrenArg) (h : Heap)
  : nat * Heap :=
  let self := next_act h in
  (self,
   Act__init__ self cls (bind_children cls arg)
     (mkHeap (lists h) (acts h) (next_list h) (S self))).

(** [self.children] read through the heap. *)
Definition children_of (h : Heap) (self : nat) : list nat :=
  match acts h !! self with
  | Some (_, l) => default [] (lists h !! l)
  | None => []
  end.

(** [add_child], lines 32-33: [self.children.append(child)] mutates the list
    object in place. *)
Definition add_child (self child : nat) (h : Heap) : Heap :=
  match acts h !! self with
  | Some (_, l) =>
      mkHeap (alter (fun cs => cs ++ [child]) l (lists h)) (acts h)
             (next_list h) (next_act h)
  | None => h
  end.

(** The acts that have [child] among their children. *)
Definition parents_of (h : Heap) (child : nat) : list nat :=
  filter (fun p => child ∈ children_of h p) (seq 0 (next_act h)).

(** [list.remove(x)]: drop the first item equal to [x]; [None] stands for the
    [ValueError] raised when there is none. *)
Fixpoint remove_first (x : nat) (l : list nat) : option (list nat) :=
  match l with
  | [] => None
  | y :: l' =>
      if decide (y = x) then Some l'
      else cons y <$> remove_first x l'
  end.

(** [remove_child], lines 35-36: [self.children.remove(child)]; [None] is
    the exception. *)
Definition remove_child (self child : nat) (h : Heap) : option Heap :=
  match acts h !! self with
  | Some (_, l) =>
      match lists h !! l with
      | Some cs =>
          match remove_first child cs with
          | Some cs' =>
              Some (mkHeap (<[l := cs']> (lists h)) (acts h)
                           (next_list h) (next_act h))
          | None => None
          end
      | None => None
      end
  | None => None
  end.

(** Every list an act refers to, and every default list, has been
    allocated. *)
Definition heap_ok (h : Heap) : Prop :=
  (forall a cls l, acts h !! a = Some (cls, l) -> l < next_list h) /\
  (forall cls, default_children cls < next_list h).

End Construction.

(** ** Test trees over the call log *)

(** [Parallel([Sequence([Wrap(s0), Wrap(s1)])])]: the child yields RUN, RUN,
    SUCCESS. *)
Definition Parallel_over_Sequence : Act Log :=
  new_Parallel
    [new_Sequence [new_Wrap (always_succeed 0); new_Wrap (always_succeed 1)]].

(** [Parallel([Wrap(f0), Sequence([Wrap(s1), Wrap(f2)])])]: the first child
    yields FAIL, the second yields RUN and then FAIL. *)
Definition Parallel_fail_late_fail : Act Log :=
  new_Parallel
    [new_Wrap (always_fail 0);
     new_Sequence [new_Wrap (always_succeed 1); new_Wrap (always_fail 2)]].

(** [Loop([Wrap(s0)], num_iter=3)] *)
Definition Loop_three : Act Log := new_Loop [new_Wrap (always_succeed 0)] 3.

(** A child that is still in flight after its first step:
    [Select([Wrap(f0), Wrap(s1)])] yields RUN, then SUCCESS. *)
Definition slow_child : Act Log :=
  new_Select [new_Wrap (always_fail 0); new_Wrap (always_succeed 1)].

Definition Sequence_mid_run : Act Log :=
  new_Sequence [slow_child; new_Wrap (always_succeed 2)].
Definition Loop_mid_run : Act Log :=
  new_Loop [slow_child; new_Wrap (always_succeed 2)] (-1).
Definition Select_mid_run : Act Log :=
  new_Select [slow_child; new_Wrap (always_succeed 2)].

(** ** Leaves in numbers, cursors, and the tree dump *)

(** Fresh leaves for a list of functions, the world after calling each of
    them once in order, and a leaf after its one call. *)
Definition leaves {W} (fs : list (W -> ActStatus * W)) : list (Act W) :=
  map new_Wrap fs.

Fixpoint call_all {W} (fs : list (W -> ActStatus * W)) (w : W) : W :=
  match fs with
  | [] => w
  | f :: fs' => call_all fs' (f w).2
  end.

Definition called {W} (f : W -> ActStatus * W) : Act W := Wrap f [] GLast.

(** The decorators: no [return] behind any [yield] but the last. *)
Definition forwarding {W} (a : Act W) : bool :=
  match a with IgnoreFail _ _ _ | Not _ _ _ => true | _ => false end.

(** The classes that have a [current_child] attribute and a [tick] that
    never assigns it. *)
Definition untracked {W} (a : Act W) : bool :=
  match a with
  | Sequence _ _ _ | Loop _ _ _ _ _ | IgnoreFail _ _ _ | Not _ _ _ => true
  | _ => false
  end.

(** A generator suspended inside child [i] has [current_child] on that
    child. *)
Definition Select_in_step {W} (a : Act W) : Prop :=
  forall i, iterator a = GChild i ->
    current_child a = Some i /\ is_Some (children a !! i).

(** *** [print_act_tree], lines 269-280

    The function reads nothing but [name] and [children], so it is modelled
    on trees of names.  Its result lists what the successive [print]
    statements write, one entry per statement (a name can itself contain
    newlines, as the source text in the name of a [Wrap] does, so an entry
    is not always one line of output).  Python 2's [print a, b, c] writes
    the items with one space between them (also after an empty first item),
    so an entry is the indentation, [" --> "] and the name. *)
Inductive NamedAct := Named (name : string) (children : list NamedAct).

Definition name_of (a : NamedAct) : string :=
  match a with Named n _ => n end.

Definition children_of_named (a : NamedAct) : list NamedAct :=
  match a with Named _ cs => cs end.

(** ["    " * indent] *)
Fixpoint spaces (indent : nat) : string :=
  match indent with
  | 0 => EmptyString
  | S n => String.append "    " (spaces n)
  end.

Definition line (indent : nat) (name : string) : string :=
  String.append (spaces indent) (String.append " --> " name).

Fixpoint print_act_tree (printTree : NamedAct) (indent : nat) : list string :=
  match printTree with
  | Named _ children =>
      flat_map
        (fun child =>
           line indent (name_of child)                  (* print ... *)
           :: match children_of_named child with        (* != [] *)
              | [] => []
              | _ :: _ => print_act_tree child (S indent)
              end)
        children
  end.

(** What the body of the loop prints for one child. *)
Definition print_child (indent : nat) (child : NamedAct) : list string :=
  line indent (name_of child)
  :: match children_of_named child with
     | [] => []
     | _ :: _ => print_act_tree child (S indent)
     end.

(** The number of nodes below the root. *)
Fixpoint descendants (a : NamedAct) : nat :=
  match a with
  | Named _ cs => list_sum (map (fun c => S (descendants c)) cs)
  end.

(** The nodes below [a] in pre-order, each with its depth, where the
    children of [a] are at [depth]. *)
Fixpoint rows (a : NamedAct) (depth : nat) : list (nat * string) :=
  match a with
  | Named _ cs => flat_map (fun c => (depth, name_of c) :: rows c (S depth)) cs
  end.

Definition row_of (depth : nat) (c : NamedAct) : list (nat * string) :=
  (depth, name_of c) :: rows c (S depth).

(** The node reached from [a] along a path of child indices. *)
Fixpoint node_at (a : NamedAct) (path : list nat) : option NamedAct :=
  match path with
  | [] => Some a
  | i :: path' =>
      match children_of_named a !! i with
      | Some c => node_at c path'
      | None => None
      end
  end.

(** * Properties *)

(** ** Unfolding one call *)
Section Unfolding.

Context {W : Type}.
Implicit Types (fn : W -> ActStatus * W) (w : W) (cs : list (Act W)).

Lemma next_Wrap_fresh fn cs f w :
  next (S f) (Wrap fn cs GFresh) w
  = (Yield (fn w).1, Wrap fn cs GLast, (fn w).2).
Proof. cbn. destruct (fn w); reflexivity. Qed.

Lemma next_Wrap_last fn cs f w :
  next (S f) (Wrap fn cs GLast) w = (StopIteration, Wrap fn cs GDone, w).
Proof. reflexivity. Qed.

Lemma next_Wrap_done fn cs f w :
  next (S f) (Wrap fn cs GDone) w = (StopIteration, Wrap fn cs GDone, w).
Proof. reflexivity. Qed.

Lemma next_Select f cs g cc w :
  next (S f) (Select cs g cc) w =
  let '(o, cs', g', cc', w') := Select_tick (next f) cs g cc w in
  (o, Select cs' g' cc', w').
Proof. reflexivity. Qed.

Lemma next_Sequence f cs g cc w :
  next (S f) (Sequence cs g cc) w =
  let '(o, cs', g', cc', w') := Sequence_tick (next f) cs g cc w in
  (o, Sequence cs' g' cc', w').
Proof. reflexivity. Qed.

Lemma next_Parallel f cs g w :
  next (S f) (Parallel cs g) w =
  let '(o, cs', g', w', _) := Parallel_tick (next f) f cs g w in
  (o, Parallel cs' g', w').
Proof. reflexivity. Qed.

Lemma next_Loop f cs g n it cc w :
  next (S f) (Loop cs g n it cc) w =
  let '(o, cs', g', it', cc', w') := Loop_tick (next f) f n it cs g cc w in
  (o, Loop cs' g' n it' cc', w').
Proof. reflexivity. Qed.

Lemma next_IgnoreFail f cs g cc w :
  next (S f) (IgnoreFail cs g cc) w =
  let '(o, cs', g', cc', w') := IgnoreFail_tick (next f) cs g cc w in
  (o, IgnoreFail cs' g' cc', w').
Proof. reflexivity. Qed.

Lemma next_Not f cs g cc w :
  next (S f) (Not cs g cc) w =
  let '(o, cs', g', cc', w') := Not_tick (next f) cs g cc w in
  (o, Not cs' g' cc', w').
Proof. reflexivity. Qed.

Lemma drive_S r fuel (a : Act W) w :
  drive (S r) fuel a w =
  match next fuel a w with
  | (Yield s, a', w') =>
      let '(ss, e, a'', w'') := drive r fuel a' w' in (s :: ss, e, a'', w'')
  | (StopIteration, a', w') => ([], Exhausted, a', w')
  | (Diverge, a', w') => ([], Diverged, a', w')
  end.
Proof. reflexivity. Qed.

End Unfolding.

(** Runs the generators of [Select], [Sequence] and [Wrap] nodes as far as
    the goal determines them; the results of the leaf functions are left for
    the caller to rewrite. *)
Ltac tick :=
  repeat first
    [ rewrite drive_S
    | rewrite next_Wrap_fresh
    | rewrite next_Wrap_last
    | rewrite next_Wrap_done
    | rewrite next_Select
    | rewrite next_Sequence
    | progress cbn [Select_tick Sequence_tick run_children for_children
                    Select_status Sequence_status id take drop app length
                    andb fst snd] ].

(** ** More fuel changes nothing

    A call that returns with some fuel returns the same with any larger
    amount, so [Diverge] for every fuel is the only way not to return. *)
Section Fuel.

Context {W : Type}.
Variables step1 step2 : Act W -> W -> Outcome * Act W * W.
Hypothesis Hstep : refines step1 step2.

Lemma for_children_fuel on_status after assign :
  forall rest enter pre cc w,
    for_result_returns (for_children step1 on_status after assign enter pre rest cc w) ->
    for_children step2 on_status after assign enter pre rest cc w
    = for_children step1 on_status after assign enter pre rest cc w.
Proof.
  induction rest as [|child rest IH]; intros enter pre cc w H.
  - reflexivity.
  - cbn [for_children] in *.
    pose proof (Hstep child w) as Hc.
    destruct (step1 child w) as [[o child'] w1]. cbn in Hc.
    destruct o as [s| |].
    + rewrite Hc by discriminate. reflexivity.
    + rewrite Hc by discriminate. apply IH, H.
    + destruct H.
Qed.

Lemma run_children_fuel on_status after assign g cs cc w :
  for_result_returns (run_children step1 on_status after assign g cs cc w) ->
  run_children step2 on_status after assign g cs cc w
  = run_children step1 on_status after assign g cs cc w.
Proof. destruct g; cbn [run_children]; apply for_children_fuel. Qed.

Lemma Yielded_returns o cs g cc (w : W) :
  o <> Diverge -> for_result_returns (Yielded o cs g cc w).
Proof. destruct o; cbn; auto. Qed.

Ltac tick_fuel :=
  intros H;
  match goal with g : Gen |- _ => destruct g end; try reflexivity;
  (rewrite run_children_fuel; [reflexivity|];
   destruct (run_children step1 _ _ _ _ _ _ _);
   [apply Yielded_returns, H|exact I]).

Lemma Select_tick_fuel cs g cc w :
  (Select_tick step1 cs g cc w).1.1.1.1 <> Diverge ->
  Select_tick step2 cs g cc w = Select_tick step1 cs g cc w.
Proof. unfold Select_tick. tick_fuel. Qed.

Lemma Sequence_tick_fuel cs g cc w :
  (Sequence_tick step1 cs g cc w).1.1.1.1 <> Diverge ->
  Sequence_tick step2 cs g cc w = Sequence_tick step1 cs g cc w.
Proof. unfold Sequence_tick. tick_fuel. Qed.

Lemma IgnoreFail_tick_fuel cs g cc w :
  (IgnoreFail_tick step1 cs g cc w).1.1.1.1 <> Diverge ->
  IgnoreFail_tick step2 cs g cc w = IgnoreFail_tick step1 cs g cc w.
Proof. unfold IgnoreFail_tick. tick_fuel. Qed.

Lemma Not_tick_fuel cs g cc w :
  (Not_tick step1 cs g cc w).1.1.1.1 <> Diverge ->
  Not_tick step2 cs g cc w = Not_tick step1 cs g cc w.
Proof. unfold Not_tick. tick_fuel. Qed.

Lemma Loop_while_fuel n1 : forall n2 n it cs cc w,
  n1 <= n2 ->
  (Loop_while step1 n1 n it cs cc w).1.1.1.1.1 <> Diverge ->
  Loop_while step2 n2 n it cs cc w = Loop_while step1 n1 n it cs cc w.
Proof.
  induction n1 as [|n1 IH]; intros n2 n it cs cc w Hle H.
  - cbn in H. congruence.
  - destruct n2 as [|n2]; [lia|]. cbn [Loop_while] in *.
    destruct (Loop_finished n it); [reflexivity|].
    rewrite for_children_fuel.
    + destruct (for_children step1 _ _ _ _ _ _ _ _); [reflexivity|].
      apply IH; [lia|exact H].
    + destruct (for_children step1 _ _ _ _ _ _ _ _); [apply Yielded_returns, H|exact I].
Qed.

Lemma Parallel_for_fuel : forall rest pre nf w,
  sweep_returns (Parallel_for step1 pre rest nf w) ->
  Parallel_for step2 pre rest nf w = Parallel_for step1 pre rest nf w.
Proof.
  induction rest as [|child rest IH]; intros pre nf w H.
  - reflexivity.
  - cbn [Parallel_for] in *.
    pose proof (Hstep child w) as Hc.
    destruct (step1 child w) as [[o child'] w1]. cbn in Hc.
    destruct o as [[]| |]; try (rewrite Hc by discriminate); try reflexivity;
      try (apply IH, H).
    destruct H.
Qed.

Lemma Parallel_while_fuel n1 : forall n2 cs nf w,
  n1 <= n2 ->
  (Parallel_while step1 n1 cs nf w).1.1.1.1 <> Diverge ->
  Parallel_while step2 n2 cs nf w = Parallel_while step1 n1 cs nf w.
Proof.
  induction n1 as [|n1 IH]; intros n2 cs nf w Hle H.
  - cbn in H. congruence.
  - destruct n2 as [|n2]; [lia|]. cbn [Parallel_while] in *.
    destruct (length cs <=? nf); [reflexivity|].
    rewrite Parallel_for_fuel.
    + destruct (Parallel_for step1 _ _ _ _) as [o cs1 nf1 w1|cs1 nf1 w1].
      * reflexivity.
      * apply IH; [lia|exact H].
    + destruct (Parallel_for step1 _ _ _ _) as [o cs1 nf1 w1|cs1 nf1 w1]; [|exact I].
      destruct o; cbn in *; auto.
Qed.

Lemma Loop_tick_fuel n1 n2 n it cs g cc w :
  n1 <= n2 ->
  (Loop_tick step1 n1 n it cs g cc w).1.1.1.1.1 <> Diverge ->
  Loop_tick step2 n2 n it cs g cc w = Loop_tick step1 n1 n it cs g cc w.
Proof.
  unfold Loop_tick. intros Hle H. destruct g; try reflexivity.
  - apply Loop_while_fuel; assumption.
  - rewrite run_children_fuel.
    + destruct (run_children step1 _ _ _ _ _ _ _); [reflexivity|].
      apply Loop_while_fuel; assumption.
    + destruct (run_children step1 _ _ _ _ _ _ _);
        [apply Yielded_returns, H|exact I].
Qed.

Lemma Parallel_tick_fuel n1 n2 cs g w :
  n1 <= n2 ->
  (Parallel_tick step1 n1 cs g w).1.1.1.1 <> Diverge ->
  Parallel_tick step2 n2 cs g w = Parallel_tick step1 n1 cs g w.
Proof.
  unfold Parallel_tick. intros Hle H. destruct g; try reflexivity.
  apply Parallel_while_fuel; assumption.
Qed.

End Fuel.

(** Fuel only decides whether a call returns, never what it returns. *)
Theorem next_fuel {W} (n : nat) : forall m (a : Act W) w,
  n <= m -> (next n a w).1.1 <> Diverge -> next m a w = next n a w.
Proof.
  induction n as [|n IH]; intros m a w Hle H.
  - cbn in H. congruence.
  - destruct m as [|m]; [lia|].
    assert (Hstep : refines (W:=W) (next n) (next m)).
    { intros c v Hc. apply IH; [lia|exact Hc]. }
    destruct a as [cs g cc|cs g cc|cs g|cs g k it cc|cs g cc|cs g cc|fn cs g].
    + rewrite !next_Select in *. rewrite (Select_tick_fuel _ _ Hstep); [reflexivity|].
      destruct (Select_tick (next n) _ _ _ _) as [[[[o cs'] g'] cc'] w']. exact H.
    + rewrite !next_Sequence in *. rewrite (Sequence_tick_fuel _ _ Hstep); [reflexivity|].
      destruct (Sequence_tick (next n) _ _ _ _) as [[[[o cs'] g'] cc'] w']. exact H.
    + rewrite !next_Parallel in *.
      rewrite (Parallel_tick_fuel _ _ Hstep n m); [reflexivity|lia|].
      destruct (Parallel_tick (next n) _ _ _ _) as [[[[o cs'] g'] w'] nf]. exact H.
    + rewrite !next_Loop in *.
      rewrite (Loop_tick_fuel _ _ Hstep n m); [reflexivity|lia|].
      destruct (Loop_tick (next n) _ _ _ _ _ _ _) as [[[[[o cs'] g'] it'] cc'] w']. exact H.
    + rewrite !next_IgnoreFail in *. rewrite (IgnoreFail_tick_fuel _ _ Hstep); [reflexivity|].
      destruct (IgnoreFail_tick (next n) _ _ _ _) as [[[[o cs'] g'] cc'] w']. exact H.
    + rewrite !next_Not in *. rewrite (Not_tick_fuel _ _ Hstep); [reflexivity|].
      destruct (Not_tick (next n) _ _ _ _) as [[[[o cs'] g'] cc'] w']. exact H.
    + reflexivity.
Qed.


(** ** Where a generator stands after a terminal status *)
Section Exhaustion.

Context {W : Type}.
Variable step : Act W -> W -> Outcome * Act W * W.

Lemma Select_status_returns : returns_on_terminal Select_status.
Proof. intros []; cbn; congruence. Qed.

Lemma Sequence_status_returns : returns_on_terminal Sequence_status.
Proof. intros []; cbn; congruence. Qed.

Lemma Loop_status_returns : returns_on_terminal Loop_status.
Proof. intros []; cbn; congruence. Qed.

Lemma for_children_terminal on_status after assign :
  returns_on_terminal on_status ->
  forall rest enter pre cc w s cs g cc' w',
    for_children step on_status after assign enter pre rest cc w
      = Yielded (Yield s) cs g cc' w' ->
    terminal s = true -> g = GLast.
Proof.
  intros Hret rest.
  induction rest as [|child rest IH]; intros enter pre cc w s cs g cc' w' H Hs.
  - discriminate.
  - cbn [for_children] in H.
    destruct (step child w) as [[o child'] w1]. destruct o as [s0| |].
    + specialize (Hret s0). destruct (on_status s0) as [s1 ret].
      injection H as -> <- <- <- <-. cbn in Hret.
      rewrite (Hret Hs). reflexivity.
    + eapply IH; eauto.
    + discriminate.
Qed.

Lemma run_children_terminal on_status after assign :
  returns_on_terminal on_status ->
  forall g0 cs0 cc w s cs g cc' w',
    run_children step on_status after assign g0 cs0 cc w
      = Yielded (Yield s) cs g cc' w' ->
    terminal s = true -> g = GLast.
Proof.
  intros Hret g0 cs0 cc w s cs g cc' w' H Hs.
  destruct g0; cbn [run_children] in H; eapply for_children_terminal; eauto.
Qed.

Lemma Select_tick_terminal cs g cc w s cs' g' cc' w' :
  Select_tick step cs g cc w = (Yield s, cs', g', cc', w') ->
  terminal s = true -> g' = GLast.
Proof.
  unfold Select_tick. intros E Hs.
  destruct g; try discriminate;
    (destruct (run_children _ _ _ _ _ _ _ _) eqn:R;
     [ injection E as -> <- <- <- <-;
       eapply run_children_terminal; eauto using Select_status_returns
     | congruence ]).
Qed.

Lemma Sequence_tick_terminal cs g cc w s cs' g' cc' w' :
  Sequence_tick step cs g cc w = (Yield s, cs', g', cc', w') ->
  terminal s = true -> g' = GLast.
Proof.
  unfold Sequence_tick. intros E Hs.
  destruct g; try discriminate;
    (destruct (run_children _ _ _ _ _ _ _ _) eqn:R;
     [ injection E as -> <- <- <- <-;
       eapply run_children_terminal; eauto using Sequence_status_returns
     | congruence ]).
Qed.

Lemma Loop_while_terminal fuel : forall n it cs cc w s cs' g it' cc' w',
  Loop_while step fuel n it cs cc w = (Yield s, cs', g, it', cc', w') ->
  terminal s = true -> g = GLast.
Proof.
  induction fuel as [|fuel IH]; intros n it cs cc w s cs' g it' cc' w' H Hs.
  - discriminate.
  - cbn [Loop_while] in H. destruct (Loop_finished n it).
    + congruence.
    + destruct (for_children _ _ _ _ _ _ _ _ _) eqn:E.
      * injection H as -> <- <- <- <- <-.
        eapply for_children_terminal; eauto using Loop_status_returns.
      * eapply IH; eauto.
Qed.

Lemma Loop_tick_terminal fuel n it cs g cc w s cs' g' it' cc' w' :
  Loop_tick step fuel n it cs g cc w = (Yield s, cs', g', it', cc', w') ->
  terminal s = true -> g' = GLast.
Proof.
  unfold Loop_tick. intros E Hs. destruct g; try discriminate.
  - eapply Loop_while_terminal; eauto.
  - destruct (run_children _ _ _ _ _ _ _ _) eqn:R.
    + injection E as -> <- <- <- <- <-.
      eapply run_children_terminal; eauto using Loop_status_returns.
    + eapply Loop_while_terminal; eauto.
Qed.

(** [Parallel.tick] yields nothing but SUCCESS and FAIL, has a [return]
    behind both [yield]s, and yields FAIL only with [num_fails] at or above
    the number of children. *)
Lemma Parallel_for_yield : forall rest pre nf w s cs nf' w',
  Parallel_for step pre rest nf w = SweepYield (Yield s) cs nf' w' ->
  s = SUCCESS.
Proof.
  induction rest as [|child rest IH]; intros pre nf w s cs nf' w' H.
  - discriminate.
  - cbn [Parallel_for] in H.
    destruct (step child w) as [[o child'] w1].
    destruct o as [[]| |]; try discriminate; try (eapply IH; eassumption).
    congruence.
Qed.

Lemma Parallel_while_yield fuel : forall cs nf w s cs' g w' nf',
  Parallel_while step fuel cs nf w = (Yield s, cs', g, w', nf') ->
  g = GLast /\ (s = SUCCESS \/ (s = FAIL /\ length cs' <= nf')).
Proof.
  induction fuel as [|fuel IH]; intros cs nf w s cs' g w' nf' H.
  - discriminate.
  - cbn [Parallel_while] in H. destruct (_ <=? _) eqn:Hle.
    + injection H as <- <- <- <- <-. apply Nat.leb_le in Hle. auto.
    + destruct (Parallel_for _ _ _ _ _) as [o cs1 nf1 w1|cs1 nf1 w1] eqn:E.
      * destruct o as [s0| |]; try discriminate.
        injection H as -> <- <- <- <-.
        apply Parallel_for_yield in E. auto.
      * eapply IH; eauto.
Qed.

Lemma Parallel_tick_yield fuel cs g w s cs' g' w' nf' :
  Parallel_tick step fuel cs g w = (Yield s, cs', g', w', nf') ->
  g' = GLast /\ (s = SUCCESS \/ (s = FAIL /\ length cs' <= nf')).
Proof.
  unfold Parallel_tick. intros E. destruct g; try discriminate.
  eapply Parallel_while_yield; eauto.
Qed.

(** A loop nest that does not assign [self.current_child] leaves it as it
    was. *)
Lemma for_children_keeps_current_child on_status after :
  forall rest enter pre cc w,
    match for_children step on_status after false enter pre rest cc w with
    | Yielded _ _ _ cc' _ | Completed _ cc' _ => cc' = cc
    end.
Proof.
  induction rest as [|child rest IH]; intros enter pre cc w.
  - reflexivity.
  - cbn [for_children]. rewrite andb_false_r.
    destruct (step child w) as [[o child'] w1]. destruct o as [s0| |].
    + destruct (on_status s0). reflexivity.
    + apply IH.
    + reflexivity.
Qed.

Lemma run_children_keeps_current_child on_status after g cs cc w :
  match run_children step on_status after false g cs cc w with
  | Yielded _ _ _ cc' _ | Completed _ cc' _ => cc' = cc
  end.
Proof.
  destruct g; cbn [run_children]; apply for_children_keeps_current_child.
Qed.

Lemma Loop_while_keeps_current_child fuel : forall n it cs cc w,
  (Loop_while step fuel n it cs cc w).1.2 = cc.
Proof.
  induction fuel as [|fuel IH]; intros n it cs cc w.
  - reflexivity.
  - cbn [Loop_while]. destruct (Loop_finished n it); [reflexivity|].
    pose proof (for_children_keeps_current_child Loop_status reset
                  cs true [] cc w) as K.
    destruct (for_children _ _ _ _ _ _ _ _ _).
    + subst. reflexivity.
    + subst. apply IH.
Qed.

End Exhaustion.

(** ** Selector and Sequence over single-shot leaves *)

(** C5: a Selector over [always-Fail, always-Fail, always-Succeed] leaves
    answers Running (twice) and then Succeeded, after which its generator is
    exhausted; over [always-Fail, always-Fail] it answers Failed once both
    leaves have been called and have failed. *)
Theorem Select_over_leaves {W} (f1 f2 f3 : W -> ActStatus * W) (w : W)
    (r k : nat) :
  always FAIL f1 -> always FAIL f2 -> always SUCCESS f3 ->
  let run3 := drive (4 + r) (2 + k)
                (new_Select [new_Wrap f1; new_Wrap f2; new_Wrap f3]) w in
  let run2 := drive (4 + r) (2 + k)
                (new_Select [new_Wrap f1; new_Wrap f2]) w in
  (drive_statuses run3 = [RUN; RUN; SUCCESS] /\ drive_end run3 = Exhausted) /\
  (drive_statuses run2 = [RUN; RUN; FAIL] /\ drive_end run2 = Exhausted /\
   drive_world run2 = (f2 (f1 w).2).2).
Proof.
  intros H1 H2 H3. unfold new_Select, new_Wrap.
  cbn [Nat.add]. cbv zeta. split.
  - tick. rewrite H1. tick. rewrite H2. tick. rewrite H3. tick.
    split; reflexivity.
  - tick. rewrite H1. tick. rewrite H2. tick. repeat split; reflexivity.
Qed.

Lemma Select_over_leaves_witness :
  always FAIL (always_fail 0) /\ always FAIL (always_fail 1) /\
  always SUCCESS (always_succeed 2) /\
  drive_statuses
    (drive 4 2 (new_Select [new_Wrap (always_fail 0); new_Wrap (always_fail 1);
                            new_Wrap (always_succeed 2)]) [])
  = [RUN; RUN; SUCCESS] /\
  drive_statuses
    (drive 4 2 (new_Select [new_Wrap (always_fail 0);
                            new_Wrap (always_fail 1)]) [])
  = [RUN; RUN; FAIL].
Proof.
  assert (H1 : always FAIL (always_fail 0)) by (intros w; reflexivity).
  assert (H2 : always FAIL (always_fail 1)) by (intros w; reflexivity).
  assert (H3 : always SUCCESS (always_succeed 2)) by (intros w; reflexivity).
  pose proof (Select_over_leaves _ _ _ [] 0 0 H1 H2 H3) as [[A _] [B _]].
  split; [exact H1|]. split; [exact H2|]. split; [exact H3|].
  split; [exact A|exact B].
Defined.

(** C6: a Sequence over [always-Succeed, always-Succeed] leaves ends with
    Succeeded; over [always-Succeed, always-Fail, always-Succeed] it ends
    with Failed, and the third leaf is never advanced: its generator is still
    fresh and the world is the one the first two calls left. *)
Theorem Sequence_over_leaves {W} (s1 s2 s3 f2 : W -> ActStatus * W) (w : W)
    (r k : nat) :
  always SUCCESS s1 -> always SUCCESS s2 -> always SUCCESS s3 ->
  always FAIL f2 ->
  let run2 := drive (4 + r) (2 + k)
                (new_Sequence [new_Wrap s1; new_Wrap s2]) w in
  let run3 := drive (4 + r) (2 + k)
                (new_Sequence [new_Wrap s1; new_Wrap f2; new_Wrap s3]) w in
  (drive_statuses run2 = [RUN; RUN; SUCCESS] /\ drive_end run2 = Exhausted) /\
  (drive_statuses run3 = [RUN; FAIL] /\ drive_end run3 = Exhausted /\
   children (drive_act run3) !! 2 = Some (new_Wrap s3) /\
   drive_world run3 = (f2 (s1 w).2).2).
Proof.
  intros H1 H2 H3 Hf. unfold new_Sequence, new_Wrap.
  cbn [Nat.add]. cbv zeta. split.
  - tick. rewrite H1. tick. rewrite H2. tick. split; reflexivity.
  - tick. rewrite H1. tick. rewrite Hf. tick. repeat split; reflexivity.
Qed.

Lemma Sequence_over_leaves_witness :
  always SUCCESS (always_succeed 0) /\ always SUCCESS (always_succeed 1) /\
  always SUCCESS (always_succeed 2) /\ always FAIL (always_fail 1) /\
  drive_statuses
    (drive 4 2 (new_Sequence [new_Wrap (always_succeed 0);
                              new_Wrap (always_succeed 1)]) [])
  = [RUN; RUN; SUCCESS] /\
  let run := drive 4 2
               (new_Sequence [new_Wrap (always_succeed 0);
                              new_Wrap (always_fail 1);
                              new_Wrap (always_succeed 2)]) [] in
  drive_statuses run = [RUN; FAIL] /\ drive_world run = [0; 1] /\
  calls 2 (drive_world run) = 0.
Proof.
  assert (H1 : always SUCCESS (always_succeed 0)) by (intros w; reflexivity).
  assert (H2 : always SUCCESS (always_succeed 1)) by (intros w; reflexivity).
  assert (H3 : always SUCCESS (always_succeed 2)) by (intros w; reflexivity).
  assert (Hf : always FAIL (always_fail 1)) by (intros w; reflexivity).
  pose proof (Sequence_over_leaves (always_succeed 0) (always_succeed 1)
                (always_succeed 2) (always_fail 1) [] 0 0 H1 H2 H3 Hf)
    as [[A _] (B & _ & _ & C)].
  split; [exact H1|]. split; [exact H2|]. split; [exact H3|].
  split; [exact Hf|]. split; [exact A|].
  cbv zeta. split; [exact B|]. split; [exact C|reflexivity].
Defined.

(** ** Terminal status and exhaustion *)

Lemma finished_next {W} (a : Act W) f w :
  finished a ->
  exists a', next (S f) a w = (StopIteration, a', w) /\ iterator a' = GDone.
Proof.
  intros [H|H]; destruct a; cbn [iterator] in H; subst;
    eexists; split; reflexivity.
Qed.

Lemma finished_all_raise {W} fuels : forall (a : Act W) w,
  finished a -> all_raise fuels a w.
Proof.
  induction fuels as [|f fuels IH]; intros a w H; [exact I|].
  destruct (finished_next a f w H) as [a' [E Hd]].
  exists a'. split; [exact E|]. apply IH. right. exact Hd.
Qed.

(** C8 (amended): for a [Wrap], [Select], [Sequence], [Parallel] or [Loop]
    node in any state, once a call of [next] has yielded SUCCESS or FAIL,
    every further call without [reset] raises [StopIteration], yields no
    status and does not touch the world. *)
Theorem terminal_then_StopIteration {W} (a : Act W) :
  returns_after_terminal_yield a = true -> raises_after_terminal a.
Proof.
  intros Hcls fuel w s a' w' H Hs fuels w2.
  apply finished_all_raise. left.
  destruct fuel as [|f]; [discriminate|].
  destruct a as [cs g cc|cs g cc|cs g|cs g n it cc|cs g cc|cs g cc|fn cs g];
    try discriminate.
  - rewrite next_Select in H.
    destruct (Select_tick _ _ _ _ _) as [[[[o cs'] g'] cc'] w1] eqn:E.
    injection H as -> <- <-.
    apply Select_tick_terminal in E as ->; [reflexivity|assumption].
  - rewrite next_Sequence in H.
    destruct (Sequence_tick _ _ _ _ _) as [[[[o cs'] g'] cc'] w1] eqn:E.
    injection H as -> <- <-.
    apply Sequence_tick_terminal in E as ->; [reflexivity|assumption].
  - rewrite next_Parallel in H.
    destruct (Parallel_tick _ _ _ _ _) as [[[[o cs'] g'] w1] nf] eqn:E.
    injection H as -> <- <-.
    apply Parallel_tick_yield in E as [-> _]. reflexivity.
  - rewrite next_Loop in H.
    destruct (Loop_tick _ _ _ _ _ _ _ _) as [[[[[o cs'] g'] it'] cc'] w1] eqn:E.
    injection H as -> <- <-.
    apply Loop_tick_terminal in E as ->; [reflexivity|assumption].
  - cbn [next] in H. unfold Wrap_tick in H. destruct g; try discriminate.
    destruct (fn w) as [s0 w0]. injection H as -> <- <-. reflexivity.
Qed.

Lemma terminal_then_StopIteration_witness :
  returns_after_terminal_yield
    (new_Select [new_Wrap (always_succeed 0)]) = true /\
  raises_after_terminal (new_Select [new_Wrap (always_succeed 0)]).
Proof.
  split; [reflexivity|].
  apply (terminal_then_StopIteration
           (new_Select [new_Wrap (always_succeed 0)])).
  reflexivity.
Defined.

(** C8 as stated fails for [IgnoreFail]: over one always-Fail leaf the first
    call yields SUCCESS and the second call yields SUCCESS again instead of
    raising. *)
Lemma IgnoreFail_yields_after_terminal :
  let a := new_IgnoreFail [new_Wrap (always_fail 0)] in
  (exists a1 a2,
     next 2 a [] = (Yield SUCCESS, a1, [0]) /\
     next 2 a1 [0] = (Yield SUCCESS, a2, [0])) /\
  ~ raises_after_terminal a.
Proof.
  split.
  - do 2 eexists. split; reflexivity.
  - intros H.
    destruct (H 2 [] SUCCESS
                (IgnoreFail [Wrap (always_fail 0) [] GLast] (GChild 0) None)
                [0] eq_refl eq_refl [1] [0]) as [a2 [E _]].
    discriminate E.
Qed.

(** The same holds for [Not] over one always-Succeed leaf: FAIL, then
    SUCCESS. *)
Lemma Not_yields_after_terminal :
  drive_statuses (drive 4 2 (new_Not [new_Wrap (always_succeed 0)]) [])
  = [FAIL; SUCCESS].
Proof. reflexivity. Qed.

(** ** Empty child lists *)

(** A [Loop] without children: every turn of [while True] only adds 1 to
    [self.iter]. *)
Lemma Loop_while_empty_unbounded {W}
    (step : Act W -> W -> Outcome * Act W * W) fuel :
  forall it cc w,
    Loop_while step fuel (-1) it [] cc w
    = (Diverge, [], GFresh, (it + Z.of_nat fuel)%Z, cc, w).
Proof.
  induction fuel as [|fuel IH]; intros it cc w.
  - cbn. rewrite Z.add_0_r. reflexivity.
  - cbn [Loop_while for_children]. change (Loop_finished (-1) it) with false.
    cbv iota. rewrite IH.
    replace (it + 1 + Z.of_nat fuel)%Z with (it + Z.of_nat (S fuel))%Z by lia.
    reflexivity.
Qed.

Lemma Loop_while_empty_bounded {W}
    (step : Act W -> W -> Outcome * Act W * W) (m : nat) :
  forall fuel n it cc w,
    n <> (-1)%Z -> Z.to_nat (n - it) <= m -> m < fuel ->
    Loop_while step fuel n it [] cc w
    = (Yield SUCCESS, [], GLast, Z.max it n, cc, w).
Proof.
  induction m as [|m IH]; intros fuel n it cc w Hn Hm Hf.
  - destruct fuel as [|fuel]; [lia|]. cbn [Loop_while].
    assert (Loop_finished n it = true) as ->.
    { unfold Loop_finished. apply andb_true_intro. split.
      - apply negb_true_iff, Z.eqb_neq. exact Hn.
      - apply Z.leb_le. lia. }
    rewrite Z.max_l by lia. reflexivity.
  - destruct fuel as [|fuel]; [lia|]. cbn [Loop_while for_children].
    destruct (Loop_finished n it) eqn:E.
    + unfold Loop_finished in E. apply andb_true_iff in E as [_ E].
      apply Z.leb_le in E. rewrite Z.max_l by lia. reflexivity.
    + unfold Loop_finished in E. apply andb_false_iff in E as [E|E].
      * apply negb_false_iff, Z.eqb_eq in E. contradiction.
      * apply Z.leb_gt in E. rewrite IH; [|assumption|lia|lia].
        rewrite !Z.max_r by lia. reflexivity.
Qed.




(** ** Parallel *)

(** X1: [Parallel.tick] has no [yield] of RUN: whatever the children and
    the state of the node are, a call of [next] that returns returns SUCCESS
    or FAIL, never RUN. *)
Lemma Parallel_never_yields_RUN {W} fuel (cs : list (Act W)) g w :
  (next fuel (Parallel cs g) w).1.1 <> Yield RUN.
Proof.
  destruct fuel as [|f]; [discriminate|].
  rewrite next_Parallel.
  destruct (Parallel_tick _ _ _ _ _) as [[[[o cs'] g'] w1] nf] eqn:E.
  cbn. intros ->. apply Parallel_tick_yield in E as [_ [E|[E _]]]; discriminate.
Qed.

(** C1: on [Parallel_over_Sequence] the first call of [next] does not stop
    after one sweep with RUN: it advances the child three times, so that both
    leaves have run, and yields SUCCESS. *)
Theorem Parallel_sweeps_until_terminal (k : nat) :
  next (4 + k) Parallel_over_Sequence []
  = (Yield SUCCESS,
     Parallel
       [Sequence [Wrap (always_succeed 0) [] GDone;
                  Wrap (always_succeed 1) [] GDone] GLast None] GLast,
     [0; 1]).
Proof. reflexivity. Qed.

(** Once the first child is a leaf that has had its turn and [num_fails] is
    still below the number of children, each turn of the [while] loop stops
    at that child's [StopIteration] and starts over: the loop never ends and
    the children behind it are never reached. *)
Lemma Parallel_while_spins {W} (m n : nat) (fn : W -> ActStatus * W) cs0 g
    (rest : list (Act W)) nf w :
  g <> GFresh -> nf <= length rest ->
  exists g', g' <> GFresh /\
    Parallel_while (next m) n (Wrap fn cs0 g :: rest) nf w
    = (Diverge, Wrap fn cs0 g' :: rest, GFresh, w, nf).
Proof.
  intros Hg Hnf. revert g Hg.
  induction n as [|n IH]; intros g Hg.
  - exists g. split; [assumption|reflexivity].
  - cbn [Parallel_while length].
    destruct (S (length rest) <=? nf) eqn:Hle;
      [apply Nat.leb_le in Hle; lia|].
    destruct m as [|m].
    + exists g. split; [assumption|reflexivity].
    + cbn [Parallel_for].
      assert (next (S m) (Wrap fn cs0 g) w
              = (StopIteration, Wrap fn cs0 GDone, w)) as ->
        by (destruct g; [congruence|reflexivity..]).
      cbn [app]. apply IH. discriminate.
Qed.

(** C2: on [Parallel_fail_late_fail], where both children fail in the end,
    the call of [next] never returns, whatever the fuel; the second child is
    advanced once and its failing leaf is never called. *)
Theorem Parallel_never_reports_late_failure (fuel : nat) :
  exists a' log,
    next fuel Parallel_fail_late_fail [] = (Diverge, a', log) /\
    calls 2 log = 0.
Proof.
  destruct fuel as [|[|[|f]]]; try (do 2 eexists; split; reflexivity).
  assert (next (S (S (S f))) Parallel_fail_late_fail []
          = let '(o, cs', g', w', _) :=
              Parallel_while (next (S (S f))) (S f)
                [Wrap (always_fail 0) [] GLast;
                 Sequence [Wrap (always_succeed 1) [] GLast;
                           new_Wrap (always_fail 2)] (GChild 0) None]
                1 [0; 1] in
            (o, Parallel cs' g', w')) as -> by reflexivity.
  edestruct (Parallel_while_spins (S (S f)) (S f) (always_fail 0) [] GLast)
    as [g' [_ ->]]; [discriminate|cbn [length]; lia|].
  do 2 eexists. split; reflexivity.
Qed.

(** ** Loop *)

(** C3: [Loop_three] ([num_iter = 3], one always-Succeed leaf) answers RUN,
    RUN, SUCCESS: the leaf is called twice, i.e. two passes are completed
    before SUCCESS, because [self.iter] starts at 1. *)
Theorem Loop_three_makes_two_passes (r k : nat) :
  let run := drive (4 + r) (3 + k) Loop_three [] in
  drive_statuses run = [RUN; RUN; SUCCESS] /\
  drive_end run = Exhausted /\
  drive_world run = [0; 0] /\
  calls 0 (drive_world run) = 2 /\
  drive_act run = Loop [new_Wrap (always_succeed 0)] GDone 3 3 None.
Proof. repeat split; reflexivity. Qed.

(** With [num_iter = 1] not a single pass is made. *)
Lemma Loop_one_makes_no_pass (k : nat) :
  next (2 + k) (new_Loop [new_Wrap (always_succeed 0)] 1) []
  = (Yield SUCCESS, Loop [new_Wrap (always_succeed 0)] GLast 1 1 None, []).
Proof. reflexivity. Qed.

(** The count in general: with [num_iter = p + 1] and one always-Succeed
    leaf the loop makes [p] passes. *)
Section LoopCount.

Context {W : Type}.
Variable f : W -> ActStatus * W.
Hypothesis Hf : always SUCCESS f.

Lemma Loop_resume_step (n it : Z) k w :
  next (3 + k) (Loop [Wrap f [] GLast] (GChild 0) n it None) w =
  if Loop_finished n (it + 1)
  then (Yield SUCCESS, Loop [Wrap f [] GFresh] GLast n (it + 1) None, w)
  else (Yield RUN, Loop [Wrap f [] GLast] (GChild 0) n (it + 1) None, (f w).2).
Proof.
  cbn [Nat.add]. rewrite next_Loop. unfold Loop_tick, run_children.
  cbn [take drop for_children]. rewrite next_Wrap_last.
  cbn [app reset map for_children Loop_while].
  destruct (Loop_finished n (it + 1)); [reflexivity|].
  cbn [for_children]. rewrite next_Wrap_fresh, Hf. reflexivity.
Qed.

Lemma Loop_resume_drive (m : nat) : forall (n it : Z) r k w,
  (n - (it + 1) = Z.of_nat m)%Z -> (n <> -1)%Z ->
  let run := drive (2 + m + r) (3 + k)
               (Loop [Wrap f [] GLast] (GChild 0) n it None) w in
  drive_statuses run = replicate m RUN ++ [SUCCESS] /\
  drive_end run = Exhausted /\ drive_world run = after_calls f m w.
Proof.
  induction m as [|m IH]; intros n it r k w Hm Hn; cbv zeta.
  - change (2 + 0 + r) with (S (S r)). rewrite drive_S, Loop_resume_step.
    assert (Loop_finished n (it + 1) = true) as ->.
    { unfold Loop_finished. apply andb_true_intro. split.
      - apply negb_true_iff, Z.eqb_neq. lia.
      - apply Z.leb_le. lia. }
    rewrite drive_S. change (3 + k) with (S (2 + k)). rewrite next_Loop.
    repeat split; reflexivity.
  - change (2 + S m + r) with (S (2 + m + r)).
    rewrite drive_S, Loop_resume_step.
    assert (Loop_finished n (it + 1) = false) as ->.
    { unfold Loop_finished. apply andb_false_iff. right. apply Z.leb_gt. lia. }
    specialize (IH n (it + 1)%Z r k (f w).2).
    cbv zeta in IH. destruct IH as (A & B & C); [lia|lia|].
    destruct (drive _ _ _ _) as [[[ss e] a'] w'].
    unfold drive_statuses, drive_end, drive_world in *. cbn in *.
    subst. repeat split; reflexivity.
Qed.

Lemma Loop_first_step (n : Z) k w :
  Loop_finished n 1 = false ->
  next (3 + k) (Loop [Wrap f [] GFresh] GFresh n 1 None) w
  = (Yield RUN, Loop [Wrap f [] GLast] (GChild 0) n 1 None, (f w).2).
Proof.
  intros Hn. change (3 + k) with (S (S (S k))). rewrite next_Loop.
  unfold Loop_tick. cbn [Loop_while]. rewrite Hn.
  cbn [for_children]. rewrite next_Wrap_fresh, Hf. reflexivity.
Qed.

(** X12: a fresh [Loop] with [num_iter = p + 1] over one always-Succeed
    leaf yields RUN [p] times and then SUCCESS, and calls the leaf [p]
    times. *)
Lemma Loop_passes_one_short (p r k : nat) w :
  let run := drive (2 + p + r) (3 + k)
               (new_Loop [new_Wrap f] (Z.of_nat (S p))) w in
  drive_statuses run = replicate p RUN ++ [SUCCESS] /\
  drive_end run = Exhausted /\ drive_world run = after_calls f p w.
Proof.
  cbv zeta. unfold new_Loop, new_Wrap. destruct p as [|p].
  - repeat split; reflexivity.
  - change (2 + S p + r) with (S (2 + p + r)).
    rewrite drive_S, Loop_first_step.
    + pose proof (Loop_resume_drive p (Z.of_nat (S (S p))) 1%Z r k (f w).2)
        as IH.
      cbv zeta in IH. destruct IH as (A & B & C); [lia|lia|].
      destruct (drive _ _ _ _) as [[[ss e] a'] w'].
      unfold drive_statuses, drive_end, drive_world in *. cbn in *.
      subst. repeat split; reflexivity.
    + unfold Loop_finished. apply andb_false_iff. right. apply Z.leb_gt. lia.
Qed.

End LoopCount.

(** C4: driving [Loop_three] to its end, calling [reset] and driving it
    again gives SUCCESS at once instead of RUN, RUN, SUCCESS: [reset] renews
    the generators but leaves [self.iter] at 3. *)
Theorem Loop_reset_keeps_iter (r k : nat) :
  let first := drive (4 + r) (3 + k) Loop_three [] in
  let again := drive (4 + r) (3 + k) (reset (drive_act first))
                 (drive_world first) in
  drive_statuses first = [RUN; RUN; SUCCESS] /\
  reset (drive_act first)
  = Loop [new_Wrap (always_succeed 0)] GFresh 3 3 None /\
  drive_statuses again = [SUCCESS] /\
  drive_world again = drive_world first.
Proof. repeat split; reflexivity. Qed.

(** ** reset on trees without Loop

    What does hold of [reset]: in a tree without [Loop] nothing but the
    generators and the [current_child] of [Select] changes while the tree is
    driven, and [reset] puts all of that back. *)
Section LoopFree.

Context {W : Type}.

Implicit Types (a : Act W) (cs pre rest : list (Act W)).

Variable step : Act W -> W -> Outcome * Act W * W.
Hypothesis Hstep : keeps_acts step.

Lemma same_act_refl a : loop_free a = true -> same_act a a.
Proof. split; auto. Qed.

Lemma Forall2_same_act_refl cs :
  forallb loop_free cs = true -> Forall2 (@same_act W) cs cs.
Proof.
  induction cs as [|c cs IH]; cbn; intros H; constructor.
  - apply andb_true_iff in H as [H _]. apply same_act_refl, H.
  - apply andb_true_iff in H as [_ H]. apply IH, H.
Qed.

Lemma for_children_same on_status assign :
  forall rest enter pre0 pre cc w,
    Forall2 (@same_act W) pre0 pre ->
    forallb loop_free rest = true ->
    Forall2 (@same_act W) (pre0 ++ rest)
      (for_result_children
         (for_children step on_status id assign enter pre rest cc w)).
Proof.
  induction rest as [|child rest IH]; intros enter pre0 pre cc w Hpre Hrest.
  - cbn. rewrite app_nil_r. exact Hpre.
  - cbn [for_children]. cbn in Hrest. apply andb_true_iff in Hrest as [Hc Hrest].
    pose proof (Hstep child w Hc) as Hc'.
    destruct (step child w) as [[o child'] w1]. cbn in Hc'.
    destruct o as [s| |].
    + destruct (on_status s). cbn.
      apply Forall2_app; [exact Hpre|].
      constructor; [exact Hc'|apply Forall2_same_act_refl, Hrest].
    + replace (pre0 ++ child :: rest) with ((pre0 ++ [child]) ++ rest)
        by (rewrite <- app_assoc; reflexivity).
      apply IH; [|exact Hrest].
      apply Forall2_app; [exact Hpre|]. constructor; [exact Hc'|constructor].
    + cbn. apply Forall2_app; [exact Hpre|].
      constructor; [exact Hc'|apply Forall2_same_act_refl, Hrest].
Qed.

Lemma run_children_same on_status assign g cs cc w :
  forallb loop_free cs = true ->
  Forall2 (@same_act W) cs
    (for_result_children (run_children step on_status id assign g cs cc w)).
Proof.
  intros H. destruct g; cbn [run_children];
    try (apply (for_children_same _ _ cs true [] []); [constructor|exact H]).
  rewrite <- (take_drop i cs) at 1.
  apply for_children_same.
  - apply Forall2_same_act_refl.
    rewrite <- (take_drop i cs), forallb_app in H.
    apply andb_true_iff in H as [H _]. exact H.
  - rewrite <- (take_drop i cs), forallb_app in H.
    apply andb_true_iff in H as [_ H]. exact H.
Qed.

Lemma Forall2_same_act_reset cs cs' :
  Forall2 (@same_act W) cs cs' ->
  map reset cs' = map reset cs /\ forallb loop_free cs' = true.
Proof.
  induction 1 as [|c c' cs cs' [Hr Hl] _ [IHr IHl]]; cbn; [auto|].
  rewrite Hr, IHr, Hl, IHl. auto.
Qed.

Lemma Forall2_same_act_trans cs1 cs2 cs3 :
  Forall2 (@same_act W) cs1 cs2 -> Forall2 (@same_act W) cs2 cs3 ->
  Forall2 (@same_act W) cs1 cs3.
Proof.
  intros H. revert cs3. induction H as [|c1 c2 cs1 cs2 [Hr Hl] _ IH]; intros cs3 H3.
  - inversion H3. constructor.
  - inversion H3 as [|? c3 ? cs3' [Hr' Hl'] H3']; subst. constructor.
    + split; [congruence|assumption].
    + apply IH, H3'.
Qed.

Lemma Parallel_for_same :
  forall rest pre0 pre nf w,
    Forall2 (@same_act W) pre0 pre ->
    forallb loop_free rest = true ->
    Forall2 (@same_act W) (pre0 ++ rest)
      (sweep_children (Parallel_for step pre rest nf w)).
Proof.
  induction rest as [|child rest IH]; intros pre0 pre nf w Hpre Hrest.
  - cbn. rewrite app_nil_r. exact Hpre.
  - cbn [Parallel_for]. cbn in Hrest. apply andb_true_iff in Hrest as [Hc Hrest].
    pose proof (Hstep child w Hc) as Hc'.
    destruct (step child w) as [[o child'] w1]. cbn in Hc'.
    assert (Hstop : Forall2 (@same_act W) (pre0 ++ child :: rest)
                      (pre ++ child' :: rest)).
    { apply Forall2_app; [exact Hpre|].
      constructor; [exact Hc'|apply Forall2_same_act_refl, Hrest]. }
    assert (Hgo : forall nf', Forall2 (@same_act W) (pre0 ++ child :: rest)
              (sweep_children (Parallel_for step (pre ++ [child']) rest nf' w1))).
    { intros nf'.
      replace (pre0 ++ child :: rest) with ((pre0 ++ [child]) ++ rest)
        by (rewrite <- app_assoc; reflexivity).
      apply IH; [|exact Hrest].
      apply Forall2_app; [exact Hpre|]. constructor; [exact Hc'|constructor]. }
    destruct o as [[]| |]; cbn [sweep_children]; auto.
Qed.

Lemma Parallel_while_same fuel : forall cs nf w,
  forallb loop_free cs = true ->
  Forall2 (@same_act W) cs (Parallel_while step fuel cs nf w).1.1.1.2.
Proof.
  induction fuel as [|fuel IH]; intros cs nf w H.
  - cbn. apply Forall2_same_act_refl, H.
  - cbn [Parallel_while]. destruct (_ <=? _).
    + cbn. apply Forall2_same_act_refl, H.
    + pose proof (Parallel_for_same cs [] [] nf w ltac:(constructor) H) as Hs.
      cbn [app] in Hs.
      destruct (Parallel_for step [] cs nf w) as [o cs1 nf1 w1|cs1 nf1 w1];
        cbn [sweep_children] in Hs.
      * destruct o; exact Hs.
      * eapply Forall2_same_act_trans; [exact Hs|].
        apply IH. apply Forall2_same_act_reset in Hs as [_ Hs]. exact Hs.
Qed.

End LoopFree.

Ltac same_children_cc IH Ha :=
  match goal with
  | |- context [run_children ?st ?os id false ?g0 ?cs ?cc ?w] =>
      let Hs := fresh "Hs" in
      let Hc := fresh "Hc" in
      pose proof (run_children_same st IH os false g0 cs cc w Ha) as Hs;
      pose proof (run_children_keeps_current_child st os id g0 cs cc w) as Hc;
      destruct (run_children st os id false g0 cs cc w);
      cbn [for_result_children] in Hs;
      apply Forall2_same_act_reset in Hs as [Hr Hl];
      (split; cbn; [rewrite Hr, Hc; reflexivity|exact Hl])
  end.

Ltac same_children IH Ha :=
  match goal with
  | |- context [run_children ?st ?os id ?asg ?g0 ?cs ?cc ?w] =>
      let Hs := fresh "Hs" in
      pose proof (run_children_same st IH os asg g0 cs cc w Ha) as Hs;
      destruct (run_children st os id asg g0 cs cc w);
      cbn [for_result_children] in Hs;
      apply Forall2_same_act_reset in Hs as [Hr Hl];
      (split; cbn; [rewrite Hr; reflexivity|exact Hl])
  end.

(** One call of [next] on a tree without [Loop] leaves a tree that [reset]
    takes back to where it takes the tree before the call. *)
Theorem next_same_act {W} fuel : keeps_acts (W:=W) (next fuel).
Proof.
  induction fuel as [|f IH]; intros a w Ha.
  - cbn. apply same_act_refl, Ha.
  - destruct a as [cs g cc|cs g cc|cs g|cs g k it cc|cs g cc|cs g cc|fn cs g];
      try discriminate; cbn [loop_free] in Ha.
    + rewrite next_Select. unfold Select_tick.
      destruct g; try (split; [reflexivity|exact Ha]); same_children IH Ha.
    + rewrite next_Sequence. unfold Sequence_tick.
      destruct g; try (split; [reflexivity|exact Ha]); same_children IH Ha.
    + rewrite next_Parallel. unfold Parallel_tick.
      destruct g; try (split; [reflexivity|exact Ha]).
      pose proof (Parallel_while_same (next f) IH f cs 0 w Ha) as Hs.
      destruct (Parallel_while _ _ _ _ _) as [[[[o cs'] g'] w'] nf].
      cbn in Hs. apply Forall2_same_act_reset in Hs as [Hr Hl].
      split; cbn; [rewrite Hr; reflexivity|exact Hl].
    + rewrite next_IgnoreFail. unfold IgnoreFail_tick.
      destruct g; try (split; [reflexivity|exact Ha]); same_children_cc IH Ha.
    + rewrite next_Not. unfold Not_tick.
      destruct g; try (split; [reflexivity|exact Ha]); same_children_cc IH Ha.
    + cbn [next]. destruct (Wrap_tick fn g w) as [[o g'] w'].
      split; reflexivity.
Qed.


Lemma drive_same_act {W} rounds : forall fuel (a : Act W) w,
  loop_free a = true -> same_act a (drive_act (drive rounds fuel a w)).
Proof.
  induction rounds as [|rounds IH]; intros fuel a w Ha.
  - cbn. split; [reflexivity|exact Ha].
  - rewrite drive_S. pose proof (next_same_act fuel a w Ha) as [Hr Hl].
    destruct (next fuel a w) as [[o a'] w']. cbn in Hr, Hl.
    destruct o as [s| |]; try (split; assumption).
    pose proof (IH fuel a' w' Hl) as [Hr' Hl'].
    destruct (drive rounds fuel a' w') as [[[ss e] a''] w''].
    unfold drive_act in *. cbn in *. split; [congruence|assumption].
Qed.

(** Induction on acts through their child lists. *)
Lemma Act_children_ind {W} (P : Act W -> Prop) :
  (forall a, Forall P (children a) -> P a) -> forall a, P a.
Proof.
  intros H. fix IH 1. intros a. apply H.
  destruct a as [cs g cc|cs g cc|cs g|cs g k it cc|cs g cc|cs g cc|fn cs g];
    cbn [children]; induction cs as [|c cs IHcs]; constructor; auto.
Qed.

Lemma reset_pristine {W} (a : Act W) : pristine a = true -> reset a = a.
Proof.
  induction a as [a IH] using Act_children_ind. intros Hp.
  assert (Hcs : forall cs : list (Act W),
             Forall (fun c => pristine c = true -> reset c = c) cs ->
             forallb pristine cs = true -> map reset cs = cs).
  { induction 1 as [|c cs Hc _ IHcs]; cbn; intros Hall; [reflexivity|].
    apply andb_true_iff in Hall as [H1 H2]. rewrite Hc, IHcs; auto. }
  destruct a as [cs g cc|cs g cc|cs g|cs g k it cc|cs g cc|cs g cc|fn cs g];
    cbn [children] in IH; cbn [pristine] in Hp;
    repeat match type of Hp with
           | (match ?x with _ => _ end) = true => destruct x; try discriminate
           end;
    cbn [reset]; rewrite (Hcs _ IH Hp); reflexivity.
Qed.

(** X14: driving a freshly built tree without [Loop] for any number of
    calls and resetting it gives back the freshly built tree, so that a
    second run is a run of the same tree. *)
Theorem reset_restores_loop_free {W} (a : Act W) rounds fuel w :
  loop_free a = true -> pristine a = true ->
  reset (drive_act (drive rounds fuel a w)) = a.
Proof.
  intros Hl Hp. destruct (drive_same_act rounds fuel a w Hl) as [Hr _].
  rewrite Hr. apply reset_pristine, Hp.
Qed.

(** ** suspend and resume *)

(** [Sequence.tick] and [Loop.tick] never assign [self.current_child]. *)
Lemma Sequence_keeps_current_child {W} fuel (cs : list (Act W)) g cc w :
  current_child (next fuel (Sequence cs g cc) w).1.2 = cc.
Proof.
  destruct fuel as [|f]; [reflexivity|].
  rewrite next_Sequence. unfold Sequence_tick.
  destruct g; try reflexivity;
    (match goal with
     | |- context [run_children ?st ?os ?af false ?g0 cs cc w] =>
         pose proof (run_children_keeps_current_child st os af g0 cs cc w) as K;
         destruct (run_children st os af false g0 cs cc w)
     end; subst; reflexivity).
Qed.

Lemma Loop_keeps_current_child {W} fuel (cs : list (Act W)) g n it cc w :
  current_child (next fuel (Loop cs g n it cc) w).1.2 = cc.
Proof.
  destruct fuel as [|f]; [reflexivity|].
  rewrite next_Loop. unfold Loop_tick.
  destruct g; try reflexivity.
  - pose proof (Loop_while_keeps_current_child (next f) f n it cs cc w) as K.
    destruct (Loop_while _ _ _ _ _ _ _) as [[[[[o cs'] g'] it'] cc'] w1].
    exact K.
  - pose proof (run_children_keeps_current_child (next f) Loop_status reset
                  (GChild i) cs cc w) as K.
    destruct (run_children _ _ _ _ _ _ _ _) as [o cs1 g1 cc1 w1|cs1 cc1 w1].
    + subst. reflexivity.
    + subst.
      pose proof (Loop_while_keeps_current_child (next f) f n (it + 1)%Z
                    cs1 cc w1) as K.
      destruct (Loop_while _ _ _ _ _ _ _) as [[[[[o cs'] g'] it'] cc'] w2].
      exact K.
Qed.

(** C7: after one step of [Sequence_mid_run] and of [Loop_mid_run] the
    first child is in flight (it answered RUN and is suspended inside its own
    first child), yet [self.current_child] is still [None] and [suspend] and
    [resume] reach no node but the receiver.  [Select], which does assign
    [self.current_child], forwards both calls to that child. *)
Theorem Sequence_Loop_suspend_reaches_no_child (k : nat) :
  let in_flight (a : Act Log) := iterator <$> (children a !! 0) in
  let seq1 := (next (3 + k) Sequence_mid_run []).1.2 in
  let loop1 := (next (3 + k) Loop_mid_run []).1.2 in
  let sel1 := (next (3 + k) Select_mid_run []).1.2 in
  ((next (3 + k) Sequence_mid_run []).1.1 = Yield RUN /\
   in_flight seq1 = Some (GChild 0) /\ current_child seq1 = None /\
   suspend seq1 = [[]] /\ resume seq1 = [[]]) /\
  ((next (3 + k) Loop_mid_run []).1.1 = Yield RUN /\
   in_flight loop1 = Some (GChild 0) /\ current_child loop1 = None /\
   suspend loop1 = [[]] /\ resume loop1 = [[]]) /\
  (in_flight sel1 = Some (GChild 0) /\ current_child sel1 = Some 0 /\
   suspend sel1 = [[]; [0]; [0; 0]] /\ resume sel1 = [[]; [0]; [0; 0]]).
Proof. repeat split; reflexivity. Qed.

(** ** Default child lists *)

(** Two acts of one class built without a [children] argument refer to the
    same list object. *)
Lemma default_children_aliased cls h :
  let '(a, h1) := Construction.construct cls Construction.Omitted h in
  let '(b, h2) := Construction.construct cls Construction.Omitted h1 in
  a <> b /\
  Construction.acts h2 !! a = Some (cls, Construction.default_children cls) /\
  Construction.acts h2 !! b = Some (cls, Construction.default_children cls).
Proof.
  cbn. split; [lia|]. split.
  - rewrite lookup_insert_ne by lia. apply lookup_insert_eq.
  - apply lookup_insert_eq.
Qed.

(** C9: [a = Select(); b = Select(); c = Wrap(f); a.add_child(c)] on the
    freshly loaded module: [c] shows up among the children of [b] as well,
    and [c] has two parents.  Passing [None] instead gives each act a list of
    its own. *)
Theorem default_children_shared :
  (let '(a, h) := Construction.construct Construction.CSelect
                    Construction.Omitted Construction.module_heap in
   let '(b, h) := Construction.construct Construction.CSelect
                    Construction.Omitted h in
   let '(c, h) := Construction.construct Construction.CWrap
                    Construction.Omitted h in
   let h := Construction.add_child a c h in
   a <> b /\
   Construction.children_of h a = [c] /\
   Construction.children_of h b = [c] /\
   Construction.parents_of h c = [a; b]) /\
  (let '(a, h) := Construction.construct Construction.CSelect
                    Construction.PyNone Construction.module_heap in
   let '(b, h) := Construction.construct Construction.CSelect
                    Construction.PyNone h in
   let '(c, h) := Construction.construct Construction.CWrap
                    Construction.Omitted h in
   let h := Construction.add_child a c h in
   Construction.children_of h a = [c] /\
   Construction.children_of h b = [] /\
   Construction.parents_of h c = [a]).
Proof. vm_compute. repeat split; discriminate. Qed.

(** * Further properties *)

(** ** What a node can yield *)
Section Yields.
Context {W : Type}.
Variable step : Act W -> W -> Outcome * Act W * W.

Lemma for_children_yields on_status after assign (s : ActStatus) :
  (forall x, (on_status x).1 <> s) ->
  forall rest enter pre cc w cs g cc' w',
    for_children step on_status after assign enter pre rest cc w
    <> Yielded (Yield s) cs g cc' w'.
Proof.
  intros Hs rest. induction rest as [|child rest IH];
    intros enter pre cc w cs g cc' w' H.
  - discriminate.
  - cbn [for_children] in H.
    destruct (step child w) as [[o child'] w1]. destruct o as [x| |].
    + specialize (Hs x). destruct (on_status x) as [s1 ret].
      injection H as -> _ _ _ _. apply Hs. reflexivity.
    + eapply IH, H.
    + discriminate.
Qed.

Lemma run_children_yields on_status after assign (s : ActStatus) :
  (forall x, (on_status x).1 <> s) ->
  forall g0 cs0 cc w cs g cc' w',
    run_children step on_status after assign g0 cs0 cc w
    <> Yielded (Yield s) cs g cc' w'.
Proof.
  intros Hs g0 cs0 cc w cs g cc' w'.
  destruct g0; cbn [run_children]; apply for_children_yields, Hs.
Qed.

Lemma Loop_while_unbounded fuel : forall it cs cc w,
  (Loop_while step fuel (-1) it cs cc w).1.1.1.1.1 <> Yield SUCCESS.
Proof.
  induction fuel as [|fuel IH]; intros it cs cc w; [discriminate|].
  cbn [Loop_while]. change (Loop_finished (-1) it) with false. cbv iota.
  destruct (for_children _ _ _ _ _ _ _ _ _) as [o cs1 g1 cc1 w1|cs1 cc1 w1] eqn:E.
  - cbn. intros ->. eapply for_children_yields in E; [exact E|].
    intros []; discriminate.
  - apply IH.
Qed.

End Yields.

(** X10: a [Loop] with [num_iter = -1] never yields SUCCESS, whatever its
    children, its state and [self.iter] are. *)
Theorem Loop_unbounded_never_succeeds {W} fuel (cs : list (Act W)) g it cc w :
  (next fuel (Loop cs g (-1) it cc) w).1.1 <> Yield SUCCESS.
Proof.
  destruct fuel as [|f]; [discriminate|].
  rewrite next_Loop. unfold Loop_tick. destruct g; try discriminate.
  - pose proof (Loop_while_unbounded (next f) f it cs cc w) as H.
    destruct (Loop_while _ _ _ _ _ _ _) as [[[[[o cs'] g'] it'] cc'] w']. exact H.
  - destruct (run_children _ _ _ _ _ _ _ _) as [o cs1 g1 cc1 w1|cs1 cc1 w1] eqn:E.
    + cbn. intros ->. eapply run_children_yields in E; [exact E|].
      intros []; discriminate.
    + pose proof (Loop_while_unbounded (next f) f (it + 1)%Z cs1 cc1 w1) as H.
      destruct (Loop_while _ _ _ _ _ _ _) as [[[[[o cs'] g'] it'] cc'] w']. exact H.
Qed.

(** X8: an [IgnoreFail] node never yields FAIL, whatever its children and
    its state are. *)
Theorem IgnoreFail_never_fails {W} fuel (cs : list (Act W)) g cc w :
  (next fuel (IgnoreFail cs g cc) w).1.1 <> Yield FAIL.
Proof.
  destruct fuel as [|f]; [discriminate|].
  rewrite next_IgnoreFail. unfold IgnoreFail_tick.
  destruct g; try discriminate;
    (destruct (run_children _ _ _ _ _ _ _ _) as [o cs1 g1 cc1 w1|cs1 cc1 w1] eqn:E;
     [cbn; intros ->; eapply run_children_yields in E; [exact E|];
      intros []; discriminate
     |discriminate]).
Qed.

(** X11: a [Loop] without children never yields RUN.  With [num_iter = -1]
    the first call never returns; with any other [num_iter] it counts
    [self.iter] up to [num_iter] inside the first call and yields SUCCESS. *)
Theorem Loop_without_children {W} :
  (forall fuel it cc (w : W),
     (next fuel (Loop [] GFresh (-1) it cc) w).1.1 = Diverge) /\
  (forall (n : Z) k (w : W), n <> (-1)%Z ->
     next (2 + Z.to_nat n + k) (new_Loop [] n) w
     = (Yield SUCCESS, Loop [] GLast n (Z.max 1 n) None, w)).
Proof.
  split.
  - intros fuel it cc w. destruct fuel as [|f]; [reflexivity|].
    rewrite next_Loop. unfold Loop_tick.
    rewrite Loop_while_empty_unbounded. reflexivity.
  - intros n k w Hn. change (2 + Z.to_nat n + k) with (S (S (Z.to_nat n + k))).
    unfold new_Loop. rewrite next_Loop. unfold Loop_tick.
    rewrite (Loop_while_empty_bounded _ (Z.to_nat n)); [reflexivity|assumption|lia|lia].
Qed.

(** ** StopIteration *)
Section NoStop.
Context {W : Type}.
Variable step : Act W -> W -> Outcome * Act W * W.

Lemma for_children_no_StopIteration on_status after assign :
  forall rest enter pre cc w cs g cc' w',
    for_children step on_status after assign enter pre rest cc w
    <> Yielded StopIteration cs g cc' w'.
Proof.
  induction rest as [|child rest IH]; intros enter pre cc w cs g cc' w' H.
  - discriminate.
  - cbn [for_children] in H.
    destruct (step child w) as [[o child'] w1]. destruct o as [x| |].
    + destruct (on_status x); discriminate.
    + eapply IH, H.
    + discriminate.
Qed.

Lemma run_children_no_StopIteration on_status after assign g0 cs0 cc w cs g cc' w' :
  run_children step on_status after assign g0 cs0 cc w
  <> Yielded StopIteration cs g cc' w'.
Proof.
  destruct g0; cbn [run_children]; apply for_children_no_StopIteration.
Qed.

Lemma Loop_while_no_StopIteration fuel : forall n it cs cc w,
  (Loop_while step fuel n it cs cc w).1.1.1.1.1 <> StopIteration.
Proof.
  induction fuel as [|fuel IH]; intros n it cs cc w; [discriminate|].
  cbn [Loop_while]. destruct (Loop_finished n it); [discriminate|].
  destruct (for_children _ _ _ _ _ _ _ _ _) as [o cs1 g1 cc1 w1|cs1 cc1 w1] eqn:E.
  - cbn. intros ->. eapply for_children_no_StopIteration, E.
  - apply IH.
Qed.

Lemma Parallel_for_no_StopIteration : forall rest pre nf w cs nf' w',
  Parallel_for step pre rest nf w <> SweepYield StopIteration cs nf' w'.
Proof.
  induction rest as [|child rest IH]; intros pre nf w cs nf' w' H.
  - discriminate.
  - cbn [Parallel_for] in H.
    destruct (step child w) as [[o child'] w1].
    destruct o as [[]| |]; try discriminate; eapply IH, H.
Qed.

Lemma Parallel_while_no_StopIteration fuel : forall cs nf w,
  (Parallel_while step fuel cs nf w).1.1.1.1 <> StopIteration.
Proof.
  induction fuel as [|fuel IH]; intros cs nf w; [discriminate|].
  cbn [Parallel_while]. destruct (_ <=? _); [discriminate|].
  destruct (Parallel_for _ _ _ _ _) as [o cs1 nf1 w1|cs1 nf1 w1] eqn:E.
  - destruct o; try discriminate. exfalso.
    eapply Parallel_for_no_StopIteration, E.
  - apply IH.
Qed.

End NoStop.

Ltac no_stop H :=
  exfalso;
  match type of H with
  | context [run_children ?st ?os ?af ?asg ?g0 ?cs ?cc ?w] =>
      let E := fresh "E" in
      destruct (run_children st os af asg g0 cs cc w)
        as [? ? ? ? ?|? ? ?] eqn:E; [|discriminate H];
      injection H as -> _ _;
      eapply run_children_no_StopIteration, E
  end.

(** X7: a call of [next] that raises [StopIteration] has called no leaf and
    changed nothing but the generator, which is finished afterwards; and a
    fresh generator never raises it, i.e. every [tick] yields at least once
    before it ends. *)
Theorem StopIteration_inert {W} fuel (a a' : Act W) w w' :
  next fuel a w = (StopIteration, a', w') ->
  w' = w /\ iterator a <> GFresh /\ iterator a' = GDone /\
  children a' = children a /\ current_child a' = current_child a.
Proof.
  intros H. destruct fuel as [|f]; [discriminate|].
  destruct a as [cs g cc|cs g cc|cs g|cs g n it cc|cs g cc|cs g cc|fn cs g].
  - rewrite next_Select in H. unfold Select_tick in H.
    destruct g; try (no_stop H); injection H as <- <-; repeat split; discriminate.
  - rewrite next_Sequence in H. unfold Sequence_tick in H.
    destruct g; try (no_stop H); injection H as <- <-; repeat split; discriminate.
  - rewrite next_Parallel in H. unfold Parallel_tick in H.
    destruct g; try (injection H as <- <-; repeat split; discriminate).
    exfalso. pose proof (Parallel_while_no_StopIteration (next f) f cs 0 w) as N.
    destruct (Parallel_while _ _ _ _ _) as [[[[o cs'] g'] w1] nf].
    injection H as -> _ _. apply N. reflexivity.
  - rewrite next_Loop in H. unfold Loop_tick in H.
    destruct g; try (injection H as <- <-; repeat split; discriminate); exfalso.
    + pose proof (Loop_while_no_StopIteration (next f) f n it cs cc w) as N.
      destruct (Loop_while _ _ _ _ _ _ _) as [[[[[o cs'] g'] it'] cc'] w1].
      injection H as -> _ _. apply N. reflexivity.
    + destruct (run_children _ _ _ _ _ _ _ _) as [o cs1 g1 cc1 w1|cs1 cc1 w1] eqn:E.
      * injection H as -> _ _. eapply run_children_no_StopIteration, E.
      * pose proof (Loop_while_no_StopIteration (next f) f n (it + 1)%Z cs1 cc1 w1) as N.
        destruct (Loop_while _ _ _ _ _ _ _) as [[[[[o cs'] g'] it'] cc'] w2].
        injection H as -> _ _. apply N. reflexivity.
  - rewrite next_IgnoreFail in H. unfold IgnoreFail_tick in H.
    destruct g; try (no_stop H); injection H as <- <-; repeat split; discriminate.
  - rewrite next_Not in H. unfold Not_tick in H.
    destruct g; try (no_stop H); injection H as <- <-; repeat split; discriminate.
  - cbn [next] in H. unfold Wrap_tick in H.
    destruct g; try (injection H as <- <-; repeat split; discriminate).
    destruct (fn w); discriminate.
Qed.

Section Forwarding.
Context {W : Type}.
Variable step : Act W -> W -> Outcome * Act W * W.

Lemma for_children_no_return on_status after assign :
  (forall x, (on_status x).2 = false) ->
  forall rest enter pre cc w o cs g cc' w',
    for_children step on_status after assign enter pre rest cc w
    = Yielded o cs g cc' w' -> exists i, g = GChild i.
Proof.
  intros Hs rest. induction rest as [|child rest IH];
    intros enter pre cc w o cs g cc' w' H.
  - discriminate.
  - cbn [for_children] in H.
    destruct (step child w) as [[o1 child'] w1]. destruct o1 as [x| |].
    + specialize (Hs x). destruct (on_status x) as [s1 ret]. cbn in Hs. subst ret.
      injection H as _ _ <- _ _. eauto.
    + eapply IH, H.
    + injection H as _ _ <- _ _. eauto.
Qed.

Lemma run_children_no_return on_status after assign :
  (forall x, (on_status x).2 = false) ->
  forall g0 cs0 cc w o cs g cc' w',
    run_children step on_status after assign g0 cs0 cc w
    = Yielded o cs g cc' w' -> exists i, g = GChild i.
Proof.
  intros Hs g0 cs0 cc w o cs g cc' w'.
  destruct g0; cbn [run_children]; apply for_children_no_return, Hs.
Qed.

End Forwarding.

Lemma forwarding_step {W} fuel (a a' : Act W) w o w' :
  forwarding a = true -> ~ finished a ->
  next fuel a w = (o, a', w') ->
  forwarding a' = true /\
  match o with
  | Yield s => (iterator a' = GLast /\ s = SUCCESS) \/ ~ finished a'
  | StopIteration => False
  | Diverge => True
  end.
Proof.
  intros Hf Hn H. destruct fuel as [|f].
  { injection H as <- <- <-. auto. }
  destruct a as [cs g cc|cs g cc|cs g|cs g n it cc|cs g cc|cs g cc|fn cs g];
    try discriminate.
  - rewrite next_IgnoreFail in H. unfold IgnoreFail_tick in H.
    destruct g; try (exfalso; apply Hn; unfold finished; cbn; auto; fail);
      (destruct (run_children _ _ _ _ _ _ _ _) as [o1 cs1 g1 cc1 w1|cs1 cc1 w1] eqn:E;
       [ injection H as <- <- <-; split; [reflexivity|];
         pose proof E as E'; apply run_children_no_return in E as [j ->];
         [|intros []; reflexivity];
         destruct o1; [right; intros [|]; discriminate
                      |eapply run_children_no_StopIteration, E'|exact I]
       | injection H as <- <- <-; split; [reflexivity|left; split; reflexivity] ]).
  - rewrite next_Not in H. unfold Not_tick in H.
    destruct g; try (exfalso; apply Hn; unfold finished; cbn; auto; fail);
      (destruct (run_children _ _ _ _ _ _ _ _) as [o1 cs1 g1 cc1 w1|cs1 cc1 w1] eqn:E;
       [ injection H as <- <- <-; split; [reflexivity|];
         pose proof E as E'; apply run_children_no_return in E as [j ->];
         [|intros []; reflexivity];
         destruct o1; [right; intros [|]; discriminate
                      |eapply run_children_no_StopIteration, E'|exact I]
       | injection H as <- <- <-; split; [reflexivity|left; split; reflexivity] ]).
Qed.

Lemma forwarding_drive {W} rounds : forall fuel (a : Act W) w ss a' w',
  forwarding a = true -> ~ finished a ->
  drive rounds fuel a w = (ss, Exhausted, a', w') ->
  last ss = Some SUCCESS.
Proof.
  induction rounds as [|rounds IH]; intros fuel a w ss a' w' Hf Hn H.
  - discriminate.
  - rewrite drive_S in H.
    destruct (next fuel a w) as [[o a1] w1] eqn:E.
    pose proof (forwarding_step fuel a a1 w o w1 Hf Hn E) as [Hf1 Ho].
    destruct o as [s| |]; [|contradiction|discriminate].
    destruct (drive rounds fuel a1 w1) as [[[ss1 e1] a2] w2] eqn:D.
    injection H as <- -> <- <-.
    destruct Ho as [[Hg ->]|Hn1].
    + destruct rounds as [|rounds]; [discriminate|].
      rewrite drive_S in D.
      destruct fuel as [|fuel]; [discriminate|].
      destruct (finished_next a1 fuel w1 (or_introl Hg)) as [a3 [E3 _]].
      rewrite E3 in D. injection D as <- _ _. reflexivity.
    + pose proof (IH fuel a1 w1 ss1 a2 w2 Hf1 Hn1 D) as L.
      destruct ss1; [discriminate|]. exact L.
Qed.

(** X9: when a fresh [Not] or [IgnoreFail] node is iterated until its
    generator is exhausted, the last status it yields is SUCCESS, whatever
    its children are (the fall-through [yield ActStatus.SUCCESS]). *)
Theorem forwarding_ends_with_SUCCESS {W} rounds fuel (cs : list (Act W)) w ss a' w' :
  drive rounds fuel (new_Not cs) w = (ss, Exhausted, a', w') \/
  drive rounds fuel (new_IgnoreFail cs) w = (ss, Exhausted, a', w') ->
  last ss = Some SUCCESS.
Proof.
  intros [H|H]; (eapply forwarding_drive; [| |exact H];
    [reflexivity|intros [|]; discriminate]).
Qed.

Lemma forwarding_ends_with_SUCCESS_witness :
  drive 4 2 (new_Not [new_Wrap (always_succeed 0)]) []
  = ([FAIL; SUCCESS], Exhausted,
     Not [Wrap (always_succeed 0) [] GDone] GDone None, [0]) /\
  last [FAIL; SUCCESS] = Some SUCCESS.
Proof.
  split; [reflexivity|].
  apply (forwarding_ends_with_SUCCESS 4 2 [new_Wrap (always_succeed 0)] []
           [FAIL; SUCCESS]
           (Not [Wrap (always_succeed 0) [] GDone] GDone None) [0]).
  left. reflexivity.
Defined.

(** ** current_child where it is never assigned *)

Lemma IgnoreFail_keeps_current_child {W} fuel (cs : list (Act W)) g cc w :
  current_child (next fuel (IgnoreFail cs g cc) w).1.2 = cc.
Proof.
  destruct fuel as [|f]; [reflexivity|].
  rewrite next_IgnoreFail. unfold IgnoreFail_tick.
  destruct g; try reflexivity;
    (match goal with
     | |- context [run_children ?st ?os ?af false ?g0 cs cc w] =>
         pose proof (run_children_keeps_current_child st os af g0 cs cc w) as K;
         destruct (run_children st os af false g0 cs cc w)
     end; subst; reflexivity).
Qed.

Lemma Not_keeps_current_child {W} fuel (cs : list (Act W)) g cc w :
  current_child (next fuel (Not cs g cc) w).1.2 = cc.
Proof.
  destruct fuel as [|f]; [reflexivity|].
  rewrite next_Not. unfold Not_tick.
  destruct g; try reflexivity;
    (match goal with
     | |- context [run_children ?st ?os ?af false ?g0 cs cc w] =>
         pose proof (run_children_keeps_current_child st os af g0 cs cc w) as K;
         destruct (run_children st os af false g0 cs cc w)
     end; subst; reflexivity).
Qed.

Lemma untracked_suspend {W} (a : Act W) :
  untracked a = true -> current_child a = None ->
  suspend a = [[]] /\ resume a = [[]].
Proof.
  destruct a as [cs g cc|cs g cc|cs g|cs g n it cc|cs g cc|cs g cc|fn cs g];
    try discriminate; cbn; intros _ ->; split; reflexivity.
Qed.

Lemma untracked_next {W} fuel (a : Act W) w :
  untracked a = true ->
  untracked (next fuel a w).1.2 = true /\
  current_child (next fuel a w).1.2 = current_child a.
Proof.
  intros H. destruct a as [cs g cc|cs g cc|cs g|cs g n it cc|cs g cc|cs g cc|fn cs g];
    try discriminate; split;
    try apply Sequence_keeps_current_child;
    try apply Loop_keeps_current_child;
    try apply IgnoreFail_keeps_current_child;
    try apply Not_keeps_current_child;
    (destruct fuel as [|f]; [reflexivity|]).
  - rewrite next_Sequence.
    destruct (Sequence_tick _ _ _ _ _) as [[[[o cs'] g'] cc'] w']. reflexivity.
  - rewrite next_Loop.
    destruct (Loop_tick _ _ _ _ _ _ _ _) as [[[[[o cs'] g'] it'] cc'] w']. reflexivity.
  - rewrite next_IgnoreFail.
    destruct (IgnoreFail_tick _ _ _ _ _) as [[[[o cs'] g'] cc'] w']. reflexivity.
  - rewrite next_Not.
    destruct (Not_tick _ _ _ _ _) as [[[[o cs'] g'] cc'] w']. reflexivity.
Qed.

(** X15: a [Sequence], [Loop], [IgnoreFail] or [Not] node whose
    [current_child] is [None] (as [__init__] leaves it) keeps it [None]
    however long it is driven and also across [reset], so [suspend] and
    [resume] never reach any of its children. *)
Theorem suspend_reaches_no_child {W} rounds fuel (a : Act W) w :
  untracked a = true -> current_child a = None ->
  let a' := drive_act (drive rounds fuel a w) in
  suspend a' = [[]] /\ resume a' = [[]] /\
  suspend (reset a') = [[]] /\ resume (reset a') = [[]].
Proof.
  intros Hu Hc. cbv zeta.
  assert (K : untracked (drive_act (drive rounds fuel a w)) = true /\
              current_child (drive_act (drive rounds fuel a w)) = None).
  { revert a w Hu Hc. induction rounds as [|rounds IH]; intros a w Hu Hc.
    - split; assumption.
    - rewrite drive_S. pose proof (untracked_next fuel a w Hu) as [Hu1 Hc1].
      destruct (next fuel a w) as [[o a1] w1]. cbn in Hu1, Hc1.
      rewrite Hc in Hc1.
      destruct o; try (split; assumption).
      specialize (IH a1 w1 Hu1 Hc1).
      destruct (drive rounds fuel a1 w1) as [[[ss e] a2] w2]. exact IH. }
  destruct K as [Ku Kc].
  destruct (untracked_suspend _ Ku Kc) as [-> ->].
  repeat split; try reflexivity;
    destruct (drive_act _) as [cs g cc|cs g cc|cs g|cs g n it cc|cs g cc|cs g cc|fn cs g];
    try discriminate; cbn in Kc; subst; reflexivity.
Qed.

(** ** reset and the leaf *)
Lemma suspend_reaches_no_child_witness :
  untracked Sequence_mid_run = true /\
  current_child Sequence_mid_run = None /\
  suspend (drive_act (drive 1 3 Sequence_mid_run [])) = [[]].
Proof.
  split; [reflexivity|]. split; [reflexivity|].
  exact (proj1 (suspend_reaches_no_child 1 3 Sequence_mid_run []
                  eq_refl eq_refl)).
Defined.

(** X13: [reset] is idempotent on every tree. *)
Theorem reset_idempotent {W} (a : Act W) : reset (reset a) = reset a.
Proof.
  induction a as [a IH] using Act_children_ind.
  assert (Hcs : map reset (map reset (children a)) = map reset (children a)).
  { induction IH as [|c cs Hc _ IHcs]; cbn; [reflexivity|]. rewrite Hc, IHcs. reflexivity. }
  destruct a as [cs g cc|cs g cc|cs g|cs g n it cc|cs g cc|cs g cc|fn cs g];
    cbn [children reset] in *; rewrite Hcs; reflexivity.
Qed.

(** X6: a [Wrap] leaf yields exactly one status, the result of one call of
    its function, and is exhausted; after [reset] it calls the function once
    more. *)
Theorem Wrap_single_shot {W} (fn : W -> ActStatus * W) (r k : nat) (w : W) :
  let run := drive (2 + r) (1 + k) (new_Wrap fn) w in
  let again := drive (2 + r) (1 + k) (reset (drive_act run)) (drive_world run) in
  drive_statuses run = [(fn w).1] /\ drive_end run = Exhausted /\
  drive_world run = (fn w).2 /\
  drive_statuses again = [(fn (fn w).2).1] /\
  drive_world again = (fn (fn w).2).2.
Proof.
  cbv zeta. unfold new_Wrap. cbn [Nat.add]. tick.
  cbn [drive_act drive_world drive_statuses drive_end fst snd reset map].
  tick. repeat split; reflexivity.
Qed.

(** ** current_child in Select *)

Section Tracks.
Context {W : Type}.
Variable step : Act W -> W -> Outcome * Act W * W.

Lemma for_children_tracks on_status after :
  forall rest enter pre cc w o cs g cc' w',
    for_children step on_status after true enter pre rest cc w
    = Yielded o cs g cc' w' ->
    enter = true \/ cc = Some (length pre) ->
    forall i, g = GChild i -> cc' = Some i /\ is_Some (cs !! i).
Proof.
  induction rest as [|child rest IH]; intros enter pre cc w o cs g cc' w' H Hcc i Hi.
  - discriminate.
  - cbn [for_children] in H.
    assert (Hc : (if enter && true then Some (length pre) else cc)
                 = Some (length pre)).
    { destruct Hcc as [->| ->]; [reflexivity|]. destruct enter; reflexivity. }
    rewrite Hc in H.
    destruct (step child w) as [[o1 child'] w1]. destruct o1 as [x| |].
    + destruct (on_status x) as [s1 ret].
      injection H as _ <- <- <- _. destruct ret; [discriminate|].
      injection Hi as <-. split; [reflexivity|].
      rewrite list_lookup_middle by reflexivity. eauto.
    + eapply IH; eauto.
    + injection H as _ <- <- <- _. injection Hi as <-. split; [reflexivity|].
      rewrite list_lookup_middle by reflexivity. eauto.
Qed.

End Tracks.

(** X16: [Select] keeps [self.current_child] on the child its generator is
    suspended in: the invariant [Select_in_step] survives every call of
    [next], and a [Select] suspended in child [i] forwards [suspend] and
    [resume] to that child and to no other. *)
Theorem Select_forwards_to_child_in_flight {W} fuel (cs : list (Act W)) g cc w :
  Select_in_step (Select cs g cc) ->
  let a' := (next fuel (Select cs g cc) w).1.2 in
  Select_in_step a' /\
  forall i, iterator a' = GChild i ->
    exists c, children a' !! i = Some c /\
      suspend a' = [] :: map (cons i) (suspend c) /\
      resume a' = [] :: map (cons i) (resume c).
Proof.
  intros Hinv. cbv zeta.
  assert (K : Select_in_step (next fuel (Select cs g cc) w).1.2 /\
              exists cs' g' cc', (next fuel (Select cs g cc) w).1.2
                                 = Select cs' g' cc').
  { destruct fuel as [|f]; [split; [exact Hinv|eauto]|].
    rewrite next_Select. unfold Select_tick.
    destruct g as [|j| |]; try (split; [intros i; discriminate|eauto]).
    - unfold run_children.
      destruct (for_children _ _ _ _ _ _ _ _ _) as [o cs1 g1 cc1 w1|cs1 cc1 w1] eqn:E.
      + split; [|eauto]. intros i Hi. cbn in Hi |- *.
        eapply for_children_tracks; eauto.
      + split; [intros i; discriminate|eauto].
    - destruct (Hinv j eq_refl) as [Hcc Hj]. cbn in Hcc, Hj.
      apply lookup_lt_is_Some in Hj.
      unfold run_children.
      destruct (for_children _ _ _ _ _ _ _ _ _) as [o cs1 g1 cc1 w1|cs1 cc1 w1] eqn:E.
      + split; [|eauto]. intros i Hi. cbn in Hi |- *.
        eapply for_children_tracks; eauto.
        right. rewrite length_take. rewrite Hcc. f_equal. lia.
      + split; [intros i; discriminate|eauto]. }
  destruct K as [K (cs' & g' & cc' & E)]. split; [exact K|].
  intros i Hi. destruct (K i Hi) as [Hcc [c Hc]].
  exists c. split; [exact Hc|].
  rewrite E in *. cbn in Hcc, Hc, Hi. subst.
  cbn. unfold forward_to. rewrite !list_lookup_fmap, Hc. split; reflexivity.
Qed.

Lemma Select_forwards_to_child_in_flight_witness :
  Select_in_step Select_mid_run /\
  forall i,
    iterator (next 3 Select_mid_run []).1.2 = GChild i ->
    exists c,
      children (next 3 Select_mid_run []).1.2 !! i = Some c /\
      suspend (next 3 Select_mid_run []).1.2 = [] :: map (cons i) (suspend c) /\
      resume (next 3 Select_mid_run []).1.2 = [] :: map (cons i) (resume c).
Proof.
  assert (H : Select_in_step Select_mid_run) by (intros i; discriminate).
  split; [exact H|].
  exact (proj2 (Select_forwards_to_child_in_flight 3 _ GFresh None [] H)).
Defined.

(** ** Any number of leaves *)

Section OverLeaves.
Context {W : Type}.
Implicit Types (f g : W -> ActStatus * W) (fs : list (W -> ActStatus * W))
  (pre rest : list (Act W)) (w : W).

Section OneCall.
Variable on_status : ActStatus -> ActStatus * bool.
Variable assign : bool.
Variable k : nat.

Lemma enter_leaf pre f rest cc w :
  for_children (next (S k)) on_status id assign true pre
    (Wrap f [] GFresh :: rest) cc w
  = Yielded (Yield (on_status (f w).1).1) (pre ++ Wrap f [] GLast :: rest)
      (if (on_status (f w).1).2 then GLast else GChild (length pre))
      (if assign then Some (length pre) else cc) (f w).2.
Proof.
  cbn [for_children]. rewrite next_Wrap_fresh.
  destruct (on_status (f w).1). reflexivity.
Qed.

Lemma leave_leaf pre f rest cc w :
  run_children (next (S k)) on_status id assign (GChild (length pre))
    (pre ++ Wrap f [] GLast :: rest) cc w
  = for_children (next (S k)) on_status id assign true
      (pre ++ [Wrap f [] GDone]) rest cc w.
Proof.
  unfold run_children. rewrite take_app_length, drop_app_length.
  cbn [for_children]. rewrite next_Wrap_last. reflexivity.
Qed.

End OneCall.

Lemma length_snoc pre (a : Act W) : length (pre ++ [a]) = S (length pre).
Proof. rewrite length_app. cbn. lia. Qed.

Lemma snoc_cons pre (a : Act W) rest : (pre ++ [a]) ++ rest = pre ++ a :: rest.
Proof. rewrite <- app_assoc. reflexivity. Qed.

(** *** Sequence *)

Lemma Sequence_leaves_resume fs : forall pre f cc w r k,
  Forall (always SUCCESS) fs ->
  exists a',
    drive (2 + length fs + r) (S (S k))
      (Sequence (pre ++ Wrap f [] GLast :: leaves fs) (GChild (length pre)) cc)
      w
    = (replicate (length fs) RUN ++ [SUCCESS], Exhausted, a', call_all fs w).
Proof.
  induction fs as [|f' fs IH]; intros pre f cc w r k Hfs.
  - cbn [leaves map length Nat.add replicate call_all app].
    rewrite drive_S, next_Sequence. unfold Sequence_tick.
    rewrite leave_leaf. cbn [for_children].
    rewrite drive_S, next_Sequence. eexists. reflexivity.
  - inversion Hfs as [|? ? Hf' Hfs']; subst.
    cbn [leaves map length replicate call_all].
    change (2 + S (length fs) + r) with (S (2 + length fs + r)).
    rewrite drive_S, next_Sequence. unfold Sequence_tick.
    rewrite leave_leaf. unfold new_Wrap at 1. rewrite enter_leaf, Hf'.
    cbn [Sequence_status fst snd]. rewrite length_snoc, snoc_cons.
    destruct (IH (pre ++ [Wrap f [] GDone]) f' cc (f' w).2 r k Hfs') as [a' E].
    rewrite length_snoc, snoc_cons in E. fold (leaves fs). rewrite E.
    eexists. reflexivity.
Qed.

Lemma Sequence_leaves_resume_fail fs : forall pre f g rest cc w r k,
  Forall (always SUCCESS) fs -> always FAIL g ->
  exists a',
    drive (2 + length fs + r) (S (S k))
      (Sequence (pre ++ Wrap f [] GLast :: leaves fs ++ new_Wrap g :: rest)
                (GChild (length pre)) cc) w
    = (replicate (length fs) RUN ++ [FAIL], Exhausted, a',
       (g (call_all fs w)).2) /\
    drop (length pre + length fs + 2) (children a') = rest.
Proof.
  induction fs as [|f' fs IH]; intros pre f g rest cc w r k Hfs Hg.
  - cbn [leaves map length Nat.add replicate call_all app].
    rewrite drive_S, next_Sequence. unfold Sequence_tick.
    rewrite leave_leaf. unfold new_Wrap at 1. rewrite enter_leaf, Hg.
    cbn [Sequence_status fst snd].
    rewrite drive_S, next_Sequence.
    eexists. split; [reflexivity|]. cbn [children].
    replace (length pre + 0 + 2)
      with (length ((pre ++ [Wrap f [] GDone]) ++ [Wrap g [] GLast]))
      by (rewrite !length_snoc; lia).
    rewrite <- (snoc_cons _ (Wrap g [] GLast) rest). apply drop_app_length.
  - inversion Hfs as [|? ? Hf' Hfs']; subst.
    cbn [leaves map length replicate call_all app].
    change (2 + S (length fs) + r) with (S (2 + length fs + r)).
    rewrite drive_S, next_Sequence. unfold Sequence_tick.
    rewrite leave_leaf. unfold new_Wrap at 1. rewrite enter_leaf, Hf'.
    cbn [Sequence_status fst snd]. rewrite length_snoc, snoc_cons.
    destruct (IH (pre ++ [Wrap f [] GDone]) f' g rest cc (f' w).2 r k Hfs' Hg)
      as [a' [E D]].
    rewrite length_snoc, snoc_cons in E. fold (leaves fs). rewrite E.
    eexists. split; [reflexivity|].
    rewrite <- D, length_snoc. f_equal. lia.
Qed.

Lemma Sequence_leaves_all fs w r k :
  Forall (always SUCCESS) fs ->
  exists a',
    drive (2 + length fs + r) (S (S k)) (Sequence (leaves fs) GFresh None) w
    = (replicate (length fs) RUN ++ [SUCCESS], Exhausted, a', call_all fs w).
Proof.
  intros Hfs. destruct fs as [|f fs].
  - eexists. reflexivity.
  - inversion Hfs as [|? ? Hf Hfs']; subst.
    cbn [leaves map length replicate call_all].
    change (2 + S (length fs) + r) with (S (2 + length fs + r)).
    rewrite drive_S, next_Sequence.
    unfold Sequence_tick, run_children. unfold new_Wrap at 1.
    rewrite enter_leaf, Hf. cbn [Sequence_status fst snd app length].
    destruct (Sequence_leaves_resume fs [] f None (f w).2 r k Hfs') as [a' E].
    cbn [app length] in E. fold (leaves fs). rewrite E.
    eexists. reflexivity.
Qed.

Lemma Sequence_leaves_cut fs g rest w r k :
  Forall (always SUCCESS) fs -> always FAIL g ->
  exists a',
    drive (2 + length fs + r) (S (S k))
      (Sequence (leaves fs ++ new_Wrap g :: rest) GFresh None) w
    = (replicate (length fs) RUN ++ [FAIL], Exhausted, a',
       (g (call_all fs w)).2) /\
    drop (S (length fs)) (children a') = rest.
Proof.
  intros Hfs Hg. destruct fs as [|f fs].
  - cbn [leaves map length replicate call_all app Nat.add].
    rewrite drive_S, next_Sequence. unfold Sequence_tick, run_children.
    unfold new_Wrap at 1. rewrite enter_leaf, Hg.
    cbn [Sequence_status fst snd app].
    rewrite drive_S, next_Sequence. eexists. split; reflexivity.
  - inversion Hfs as [|? ? Hf Hfs']; subst.
    cbn [leaves map length replicate call_all app].
    change (2 + S (length fs) + r) with (S (2 + length fs + r)).
    rewrite drive_S, next_Sequence.
    unfold Sequence_tick, run_children. unfold new_Wrap at 1.
    rewrite enter_leaf, Hf. cbn [Sequence_status fst snd app length].
    destruct (Sequence_leaves_resume_fail fs [] f g rest None (f w).2 r k
                Hfs' Hg) as [a' [E D]].
    cbn [app length] in E, D. fold (leaves fs). rewrite E.
    eexists. split; [reflexivity|].
    rewrite <- D. f_equal. lia.
Qed.

(** *** Select *)

Lemma Select_leaves_resume fs : forall pre f cc w r k,
  Forall (always FAIL) fs ->
  exists a',
    drive (2 + length fs + r) (S (S k))
      (Select (pre ++ Wrap f [] GLast :: leaves fs) (GChild (length pre)) cc)
      w
    = (replicate (length fs) RUN ++ [FAIL], Exhausted, a', call_all fs w).
Proof.
  induction fs as [|f' fs IH]; intros pre f cc w r k Hfs.
  - cbn [leaves map length Nat.add replicate call_all app].
    rewrite drive_S, next_Select. unfold Select_tick.
    rewrite leave_leaf. cbn [for_children].
    rewrite drive_S, next_Select. eexists. reflexivity.
  - inversion Hfs as [|? ? Hf' Hfs']; subst.
    cbn [leaves map length replicate call_all].
    change (2 + S (length fs) + r) with (S (2 + length fs + r)).
    rewrite drive_S, next_Select. unfold Select_tick.
    rewrite leave_leaf. unfold new_Wrap at 1. rewrite enter_leaf, Hf'.
    cbn [Select_status fst snd]. rewrite !length_snoc, snoc_cons.
    destruct (IH (pre ++ [Wrap f [] GDone]) f' (Some (S (length pre))) (f' w).2 r k Hfs') as [a' E].
    rewrite length_snoc, snoc_cons in E. fold (leaves fs). rewrite E.
    eexists. reflexivity.
Qed.

Lemma Select_leaves_resume_win fs : forall pre f g rest cc w r k,
  Forall (always FAIL) fs -> always SUCCESS g ->
  exists a',
    drive (2 + length fs + r) (S (S k))
      (Select (pre ++ Wrap f [] GLast :: leaves fs ++ new_Wrap g :: rest)
                (GChild (length pre)) cc) w
    = (replicate (length fs) RUN ++ [SUCCESS], Exhausted, a',
       (g (call_all fs w)).2) /\
    drop (length pre + length fs + 2) (children a') = rest.
Proof.
  induction fs as [|f' fs IH]; intros pre f g rest cc w r k Hfs Hg.
  - cbn [leaves map length Nat.add replicate call_all app].
    rewrite drive_S, next_Select. unfold Select_tick.
    rewrite leave_leaf. unfold new_Wrap at 1. rewrite enter_leaf, Hg.
    cbn [Select_status fst snd].
    rewrite drive_S, next_Select.
    eexists. split; [reflexivity|]. cbn [children].
    replace (length pre + 0 + 2)
      with (length ((pre ++ [Wrap f [] GDone]) ++ [Wrap g [] GLast]))
      by (rewrite !length_snoc; lia).
    rewrite <- (snoc_cons _ (Wrap g [] GLast) rest). apply drop_app_length.
  - inversion Hfs as [|? ? Hf' Hfs']; subst.
    cbn [leaves map length replicate call_all app].
    change (2 + S (length fs) + r) with (S (2 + length fs + r)).
    rewrite drive_S, next_Select. unfold Select_tick.
    rewrite leave_leaf. unfold new_Wrap at 1. rewrite enter_leaf, Hf'.
    cbn [Select_status fst snd]. rewrite !length_snoc, snoc_cons.
    destruct (IH (pre ++ [Wrap f [] GDone]) f' g rest (Some (S (length pre))) (f' w).2 r k Hfs' Hg)
      as [a' [E D]].
    rewrite length_snoc, snoc_cons in E. fold (leaves fs). rewrite E.
    eexists. split; [reflexivity|].
    rewrite <- D, length_snoc. f_equal. lia.
Qed.

Lemma Select_leaves_all fs w r k :
  Forall (always FAIL) fs ->
  exists a',
    drive (2 + length fs + r) (S (S k)) (Select (leaves fs) GFresh None) w
    = (replicate (length fs) RUN ++ [FAIL], Exhausted, a', call_all fs w).
Proof.
  intros Hfs. destruct fs as [|f fs].
  - eexists. reflexivity.
  - inversion Hfs as [|? ? Hf Hfs']; subst.
    cbn [leaves map length replicate call_all].
    change (2 + S (length fs) + r) with (S (2 + length fs + r)).
    rewrite drive_S, next_Select.
    unfold Select_tick, run_children. unfold new_Wrap at 1.
    rewrite enter_leaf, Hf. cbn [Select_status fst snd app length].
    destruct (Select_leaves_resume fs [] f (Some 0) (f w).2 r k Hfs') as [a' E].
    cbn [app length] in E. fold (leaves fs). rewrite E.
    eexists. reflexivity.
Qed.

Lemma Select_leaves_win fs g rest w r k :
  Forall (always FAIL) fs -> always SUCCESS g ->
  exists a',
    drive (2 + length fs + r) (S (S k))
      (Select (leaves fs ++ new_Wrap g :: rest) GFresh None) w
    = (replicate (length fs) RUN ++ [SUCCESS], Exhausted, a',
       (g (call_all fs w)).2) /\
    drop (S (length fs)) (children a') = rest.
Proof.
  intros Hfs Hg. destruct fs as [|f fs].
  - cbn [leaves map length replicate call_all app Nat.add].
    rewrite drive_S, next_Select. unfold Select_tick, run_children.
    unfold new_Wrap at 1. rewrite enter_leaf, Hg.
    cbn [Select_status fst snd app].
    rewrite drive_S, next_Select. eexists. split; reflexivity.
  - inversion Hfs as [|? ? Hf Hfs']; subst.
    cbn [leaves map length replicate call_all app].
    change (2 + S (length fs) + r) with (S (2 + length fs + r)).
    rewrite drive_S, next_Select.
    unfold Select_tick, run_children. unfold new_Wrap at 1.
    rewrite enter_leaf, Hf. cbn [Select_status fst snd app length].
    destruct (Select_leaves_resume_win fs [] f g rest (Some 0) (f w).2 r k
                Hfs' Hg) as [a' [E D]].
    cbn [app length] in E, D. fold (leaves fs). rewrite E.
    eexists. split; [reflexivity|].
    rewrite <- D. f_equal. lia.
Qed.

End OverLeaves.

(** X5: a fresh [Sequence] over [n] always-Succeed leaves yields RUN [n]
    times and then SUCCESS, having called every leaf once in order.  If the
    succeeding leaves are followed by an always-Fail leaf, it yields FAIL
    in place of the next RUN and stops: whatever children come after the
    failing leaf are left exactly as they were. *)
Theorem Sequence_over_any_leaves {W} (fs : list (W -> ActStatus * W)) g
    (rest : list (Act W)) w r k :
  Forall (always SUCCESS) fs -> always FAIL g ->
  let all := drive (2 + length fs + r) (2 + k) (new_Sequence (leaves fs)) w in
  let cut := drive (2 + length fs + r) (2 + k)
               (new_Sequence (leaves fs ++ new_Wrap g :: rest)) w in
  (drive_statuses all = replicate (length fs) RUN ++ [SUCCESS] /\
   drive_end all = Exhausted /\ drive_world all = call_all fs w) /\
  (drive_statuses cut = replicate (length fs) RUN ++ [FAIL] /\
   drive_end cut = Exhausted /\ drive_world cut = (g (call_all fs w)).2 /\
   drop (S (length fs)) (children (drive_act cut)) = rest).
Proof.
  intros Hfs Hg. cbv zeta. unfold new_Sequence.
  change (2 + k) with (S (S k)).
  destruct (Sequence_leaves_all fs w r k Hfs) as [a1 ->].
  destruct (Sequence_leaves_cut fs g rest w r k Hfs Hg) as [a2 [-> D]].
  repeat split; try reflexivity. exact D.
Qed.

(** X4: a fresh [Select] over [n] always-Fail leaves yields RUN [n] times
    and then FAIL, having called every leaf once in order.  If the failing
    leaves are followed by an always-Succeed leaf, it yields SUCCESS in
    place of the next RUN and stops: whatever children come after the
    succeeding leaf are left exactly as they were. *)
Theorem Select_over_any_leaves {W} (fs : list (W -> ActStatus * W)) g
    (rest : list (Act W)) w r k :
  Forall (always FAIL) fs -> always SUCCESS g ->
  let all := drive (2 + length fs + r) (2 + k) (new_Select (leaves fs)) w in
  let win := drive (2 + length fs + r) (2 + k)
               (new_Select (leaves fs ++ new_Wrap g :: rest)) w in
  (drive_statuses all = replicate (length fs) RUN ++ [FAIL] /\
   drive_end all = Exhausted /\ drive_world all = call_all fs w) /\
  (drive_statuses win = replicate (length fs) RUN ++ [SUCCESS] /\
   drive_end win = Exhausted /\ drive_world win = (g (call_all fs w)).2 /\
   drop (S (length fs)) (children (drive_act win)) = rest).
Proof.
  intros Hfs Hg. cbv zeta. unfold new_Select.
  change (2 + k) with (S (S k)).
  destruct (Select_leaves_all fs w r k Hfs) as [a1 ->].
  destruct (Select_leaves_win fs g rest w r k Hfs Hg) as [a2 [-> D]].
  repeat split; try reflexivity. exact D.
Qed.

Lemma over_leaves_hypotheses :
  Forall (always FAIL) [always_fail 0; always_fail 1] /\
  Forall (always SUCCESS) [always_succeed 0; always_succeed 1] /\
  always SUCCESS (always_succeed 2) /\ always FAIL (always_fail 2).
Proof.
  repeat split; repeat constructor; intros w; reflexivity.
Qed.

Lemma Sequence_over_any_leaves_witness :
  Forall (always SUCCESS) [always_succeed 0; always_succeed 1] /\
  always FAIL (always_fail 2) /\
  drive_statuses
    (drive 4 2
       (new_Sequence (leaves [always_succeed 0; always_succeed 1]
                      ++ new_Wrap (always_fail 2) :: [slow_child])) [])
  = [RUN; RUN; FAIL].
Proof.
  destruct over_leaves_hypotheses as (_ & Hs & _ & Hf).
  split; [exact Hs|]. split; [exact Hf|].
  exact (proj1 (proj2 (Sequence_over_any_leaves
                         [always_succeed 0; always_succeed 1] (always_fail 2)
                         [slow_child] [] 0 0 Hs Hf))).
Defined.

Lemma Select_over_any_leaves_witness :
  Forall (always FAIL) [always_fail 0; always_fail 1] /\
  always SUCCESS (always_succeed 2) /\
  drive_statuses
    (drive 4 2
       (new_Select (leaves [always_fail 0; always_fail 1]
                    ++ new_Wrap (always_succeed 2) :: [slow_child])) [])
  = [RUN; RUN; SUCCESS].
Proof.
  destruct over_leaves_hypotheses as (Hf & _ & Hs & _).
  split; [exact Hf|]. split; [exact Hs|].
  exact (proj1 (proj2 (Select_over_any_leaves
                         [always_fail 0; always_fail 1] (always_succeed 2)
                         [slow_child] [] 0 0 Hf Hs))).
Defined.

(** ** Parallel over leaves *)

Section ParallelLeaves.
Context {W : Type}.
Implicit Types (f g : W -> ActStatus * W) (fs : list (W -> ActStatus * W))
  (pre rest : list (Act W)) (w : W).

Lemma Parallel_for_failing_leaves k fs : forall pre nf w,
  Forall (always FAIL) fs ->
  Parallel_for (next (S k)) pre (leaves fs) nf w
  = SweepOver (pre ++ map called fs) (nf + length fs) (call_all fs w).
Proof.
  induction fs as [|f fs IH]; intros pre nf w Hfs.
  - cbn. rewrite app_nil_r, Nat.add_0_r. reflexivity.
  - inversion Hfs as [|? ? Hf Hfs']; subst.
    cbn [leaves map Parallel_for]. unfold new_Wrap at 1.
    rewrite next_Wrap_fresh, Hf. fold (leaves fs).
    rewrite IH by assumption. rewrite <- app_assoc. cbn [app length call_all].
    f_equal. lia.
Qed.

Lemma Parallel_for_first_success k fs g rest : forall pre nf w,
  Forall (always FAIL) fs -> always SUCCESS g ->
  Parallel_for (next (S k)) pre (leaves fs ++ new_Wrap g :: rest) nf w
  = SweepYield (Yield SUCCESS) (pre ++ map called fs ++ called g :: rest)
      (nf + length fs) (g (call_all fs w)).2.
Proof.
  induction fs as [|f fs IH]; intros pre nf w Hfs Hg.
  - cbn [leaves map app Parallel_for length call_all]. unfold new_Wrap at 1.
    rewrite next_Wrap_fresh, Hg, Nat.add_0_r. reflexivity.
  - inversion Hfs as [|? ? Hf Hfs']; subst.
    cbn [leaves map app Parallel_for]. unfold new_Wrap at 1.
    rewrite next_Wrap_fresh, Hf. fold (leaves fs).
    rewrite IH by assumption. rewrite <- app_assoc. cbn [app length call_all].
    f_equal. lia.
Qed.

End ParallelLeaves.

(** X2: a fresh [Parallel] over always-Fail leaves calls every leaf once
    and yields FAIL, all in its first call; if the failing leaves are
    followed by an always-Succeed leaf, the first call yields SUCCESS at that
    leaf and the children after it are left as they were. *)
Theorem Parallel_over_leaves {W} (fs : list (W -> ActStatus * W)) g
    (rest : list (Act W)) k w :
  Forall (always FAIL) fs -> always SUCCESS g ->
  next (3 + k) (new_Parallel (leaves fs)) w
  = (Yield FAIL, Parallel (map called fs) GLast, call_all fs w) /\
  next (3 + k) (new_Parallel (leaves fs ++ new_Wrap g :: rest)) w
  = (Yield SUCCESS, Parallel (map called fs ++ called g :: rest) GLast,
     (g (call_all fs w)).2).
Proof.
  intros Hfs Hg. change (3 + k) with (S (S (S k))). unfold new_Parallel.
  rewrite !next_Parallel. unfold Parallel_tick. split.
  - destruct fs as [|f fs]; [reflexivity|].
    cbn [Parallel_while]. 
    replace (length (leaves (f :: fs)) <=? 0) with false by reflexivity.
    rewrite Parallel_for_failing_leaves by assumption. cbn [app Nat.add].
    replace (length (map called (f :: fs)) <=? length (f :: fs)) with true.
    + reflexivity.
    + symmetry. apply Nat.leb_le. rewrite length_map. lia.
  - cbn [Parallel_while].
    replace (length (leaves fs ++ new_Wrap g :: rest) <=? 0) with false.
    + rewrite Parallel_for_first_success by assumption. reflexivity.
    + symmetry. apply Nat.leb_gt. rewrite length_app. cbn. lia.
Qed.

(** X3: a [Parallel] over an always-Fail leaf and a second child whose
    first step is RUN never returns from its first call: the second sweep
    and every later one stops at the [StopIteration] of the leaf. *)
Theorem Parallel_stuck_behind_exhausted_leaf {W} (f : W -> ActStatus * W)
    (c : Act W) fuel w :
  always FAIL f ->
  (forall m v, (next m c v).1.1 = Yield RUN \/ (next m c v).1.1 = Diverge) ->
  (next fuel (new_Parallel [new_Wrap f; c]) w).1.1 = Diverge.
Proof.
  intros Hf Hc. destruct fuel as [|[|m]]; try reflexivity.
  unfold new_Parallel. rewrite next_Parallel. unfold Parallel_tick.
  cbn [Parallel_while length Nat.leb Parallel_for]. unfold new_Wrap.
  rewrite next_Wrap_fresh, Hf. cbn [app].
  specialize (Hc (S m) (f w).2).
  destruct (next (S m) c (f w).2) as [[o c'] w1]. cbn in Hc.
  destruct Hc as [->| ->]; [|reflexivity].
  cbn [app Parallel_for].
  destruct (Parallel_while_spins (S m) m f [] GLast [c'] 1 w1) as [g' [_ E]];
    [discriminate|cbn; lia|].
  rewrite E. reflexivity.
Qed.

Lemma Parallel_over_leaves_witness :
  Forall (always FAIL) [always_fail 0; always_fail 1] /\
  always SUCCESS (always_succeed 2) /\
  next 3 (new_Parallel (leaves [always_fail 0; always_fail 1])) []
  = (Yield FAIL, Parallel (map called [always_fail 0; always_fail 1]) GLast,
     [0; 1]).
Proof.
  destruct over_leaves_hypotheses as (Hf & _ & Hs & _).
  split; [exact Hf|]. split; [exact Hs|].
  exact (proj1 (Parallel_over_leaves [always_fail 0; always_fail 1]
                  (always_succeed 2) [] 0 [] Hf Hs)).
Defined.

Lemma Parallel_stuck_behind_exhausted_leaf_witness :
  always FAIL (always_fail 0) /\
  (forall m v, (next m slow_child v).1.1 = Yield RUN \/
               (next m slow_child v).1.1 = Diverge) /\
  (next 9 (new_Parallel [new_Wrap (always_fail 0); slow_child]) []).1.1
  = Diverge.
Proof.
  assert (Hf : always FAIL (always_fail 0)) by (intros w; reflexivity).
  assert (Hc : forall m v, (next m slow_child v).1.1 = Yield RUN \/
                           (next m slow_child v).1.1 = Diverge).
  { intros [|[|m]] v; [right; reflexivity|right; reflexivity|left; reflexivity]. }
  split; [exact Hf|]. split; [exact Hc|].
  exact (Parallel_stuck_behind_exhausted_leaf (always_fail 0) slow_child 9 []
           Hf Hc).
Defined.

(** ** Child lists in the heap *)
Section ChildLists.

Import Construction.

Lemma remove_first_absent x l : x ∉ l -> remove_first x l = None.
Proof.
  induction l as [|y l IH]; intros H; [reflexivity|]. cbn.
  apply not_elem_of_cons in H as [Hne H].
  destruct (decide (y = x)); [congruence|]. rewrite IH by assumption. reflexivity.
Qed.


(** X20: [remove_child] of something that is not among the children
    raises (the [ValueError] of [list.remove]) and changes nothing. *)
Theorem remove_child_absent self child h :
  child ∉ children_of h self -> remove_child self child h = None.
Proof.
  unfold children_of, remove_child. intros H.
  destruct (acts h !! self) as [[cls l]|]; [|reflexivity].
  destruct (lists h !! l) as [cs|]; [|reflexivity].
  cbn in H. rewrite remove_first_absent by assumption. reflexivity.
Qed.


(** X17: in any heap where the default list of a class exists, two acts of
    that class built without a [children] argument share it: [add_child] on
    the first appends to the children of both. *)
Theorem defaults_share_one_list cls h c :
  is_Some (lists h !! default_children cls) ->
  let '(a, h1) := construct cls Omitted h in
  let '(b, h2) := construct cls Omitted h1 in
  a <> b /\
  children_of (add_child a c h2) a = children_of h2 a ++ [c] /\
  children_of (add_child a c h2) b = children_of h2 b ++ [c].
Proof.
  intros [cs Hcs]. cbn. split; [lia|].
  unfold add_child, children_of. cbn [acts lists].
  rewrite lookup_insert_ne by lia. rewrite !lookup_insert_eq. cbn [acts lists].
  rewrite lookup_insert_ne by lia. rewrite !lookup_insert_eq.
  rewrite lookup_alter_eq, Hcs. split; reflexivity.
Qed.

(** X18: an act built with [children=None] gets a list of its own: it
    starts empty, [add_child] on it changes the children of no other act,
    and the heap stays well formed. *)
Theorem None_children_are_private cls h c :
  heap_ok h ->
  let '(a, h1) := construct cls PyNone h in
  children_of h1 a = [] /\
  children_of (add_child a c h1) a = [c] /\
  (forall p, p <> a ->
     children_of (add_child a c h1) p = children_of h p) /\
  heap_ok (add_child a c h1).
Proof.
  intros [Hacts Hdef]. cbn.
  unfold add_child, children_of. cbn [acts lists].
  rewrite !lookup_insert_eq. cbn [acts lists]. rewrite !lookup_insert_eq.
  rewrite lookup_alter_eq, lookup_insert_eq. cbn.
  repeat split.
  - intros p Hp. rewrite lookup_insert_ne by congruence.
    destruct (acts h !! p) as [[cls' l]|] eqn:E; [|reflexivity].
    apply Hacts in E.
    rewrite lookup_alter_ne, lookup_insert_ne by lia. reflexivity.
  - cbn [acts next_list]. intros a cls' l Ha.
    destruct (decide (a = next_act h)) as [->|Hne].
    + rewrite lookup_insert_eq in Ha. injection Ha as <- <-. lia.
    + rewrite lookup_insert_ne in Ha by congruence. apply Hacts in Ha. lia.
  - cbn [next_list]. intros cls'. specialize (Hdef cls'). lia.
Qed.

Lemma heap_ok_module_heap : heap_ok module_heap.
Proof.
  split.
  - intros a cls l H. cbn in H. rewrite lookup_empty in H. discriminate.
  - intros []; cbn; lia.
Qed.

Lemma remove_child_absent_witness :
  (5 ∉ children_of (construct CSelect PyNone module_heap).2 0) /\
  remove_child 0 5 (construct CSelect PyNone module_heap).2 = None.
Proof.
  assert (H : 5 ∉ children_of (construct CSelect PyNone module_heap).2 0)
    by (vm_compute; apply not_elem_of_nil).
  split; [exact H|].
  exact (remove_child_absent 0 5 _ H).
Defined.


Lemma defaults_share_one_list_witness :
  is_Some (lists module_heap !! default_children CSequence) /\
  let '(a, h1) := construct CSequence Omitted module_heap in
  let '(b, h2) := construct CSequence Omitted h1 in
  a <> b /\
  children_of (add_child a 7 h2) a = children_of h2 a ++ [7] /\
  children_of (add_child a 7 h2) b = children_of h2 b ++ [7].
Proof.
  assert (H : is_Some (lists module_heap !! default_children CSequence))
    by (exists []; reflexivity).
  split; [exact H|].
  exact (defaults_share_one_list CSequence module_heap 7 H).
Defined.

Lemma None_children_are_private_witness :
  heap_ok module_heap /\
  let '(a, h1) := construct CLoop PyNone module_heap in
  children_of h1 a = [] /\
  children_of (add_child a 7 h1) a = [7] /\
  (forall p, p <> a ->
     children_of (add_child a 7 h1) p = children_of module_heap p) /\
  heap_ok (add_child a 7 h1).
Proof.
  split; [exact heap_ok_module_heap|].
  exact (None_children_are_private CLoop module_heap 7 heap_ok_module_heap).
Defined.

End ChildLists.

(** ** The tree dump *)

Lemma NamedAct_children_ind (P : NamedAct -> Prop) :
  (forall a, Forall P (children_of_named a) -> P a) -> forall a, P a.
Proof.
  intros H. fix IH 1. intros a. apply H.
  destruct a as [nm cs]. cbn [children_of_named].
  induction cs as [|c cs IHcs]; constructor; auto.
Qed.

Lemma print_act_tree_unfold nm cs indent :
  print_act_tree (Named nm cs) indent = flat_map (print_child indent) cs.
Proof. reflexivity. Qed.

Lemma descendants_unfold nm cs :
  descendants (Named nm cs) = list_sum (map (fun c => S (descendants c)) cs).
Proof. reflexivity. Qed.

Lemma rows_unfold nm cs depth :
  rows (Named nm cs) depth = flat_map (row_of depth) cs.
Proof. reflexivity. Qed.

Lemma rows_leaf nm depth : rows (Named nm []) depth = [].
Proof. reflexivity. Qed.

Lemma print_act_tree_rows (t : NamedAct) : forall indent,
  print_act_tree t indent = map (fun r => line r.1 r.2) (rows t indent).
Proof.
  induction t as [t IH] using NamedAct_children_ind.
  destruct t as [nm cs]. cbn [children_of_named] in IH.
  intros indent. rewrite print_act_tree_unfold, rows_unfold.
  induction IH as [|c cs Hc _ IHcs]; [reflexivity|].
  change (flat_map (print_child indent) (c :: cs))
    with (print_child indent c ++ flat_map (print_child indent) cs).
  change (flat_map (row_of indent) (c :: cs))
    with (row_of indent c ++ flat_map (row_of indent) cs).
  rewrite map_app, IHcs. f_equal.
  unfold print_child, row_of. cbn [map fst snd]. f_equal.
  destruct c as [nmc [|c1 cs1]]; cbn [children_of_named].
  - reflexivity.
  - apply Hc.
Qed.

Lemma rows_length (t : NamedAct) : forall depth,
  length (rows t depth) = descendants t.
Proof.
  induction t as [t IH] using NamedAct_children_ind.
  destruct t as [nm cs]. cbn [children_of_named] in IH.
  intros depth. rewrite rows_unfold, descendants_unfold.
  induction IH as [|c cs Hc _ IHcs]; [reflexivity|].
  change (flat_map (row_of depth) (c :: cs))
    with (row_of depth c ++ flat_map (row_of depth) cs).
  change (list_sum (map (fun c => S (descendants c)) (c :: cs)))
    with (S (descendants c)
          + list_sum (map (fun c => S (descendants c)) cs)).
  rewrite length_app, IHcs. unfold row_of. cbn [length]. rewrite Hc. reflexivity.
Qed.

Lemma rows_nodes (t : NamedAct) : forall depth d nm,
  In (d, nm) (rows t depth) <->
  exists i path c,
    node_at t (i :: path) = Some c /\ name_of c = nm /\
    d = depth + length path.
Proof.
  induction t as [t IH] using NamedAct_children_ind.
  destruct t as [nm0 cs]. cbn [children_of_named] in IH.
  intros depth d nm. rewrite rows_unfold, in_flat_map.
  rewrite Forall_forall in IH. split.
  - intros (c & Hc & Hin). unfold row_of in Hin.
    apply list_elem_of_In in Hc. pose proof Hc as Hc'.
    apply list_elem_of_lookup in Hc as [i Hi].
    destruct Hin as [E|Hin].
    + injection E as <- <-. exists i, [], c. cbn. rewrite Hi.
      repeat split. lia.
    + apply (IH c Hc') in Hin as (i' & path & c' & Hn & Hnm & ->).
      exists i, (i' :: path), c'. cbn [node_at children_of_named].
      rewrite Hi. split; [exact Hn|]. split; [exact Hnm|]. cbn. lia.
  - intros (i & path & c' & Hn & Hnm & ->).
    cbn [node_at children_of_named] in Hn.
    destruct (cs !! i) as [c|] eqn:Hi; [|discriminate].
    assert (Hc : c ∈ cs) by (apply list_elem_of_lookup; eauto).
    exists c. split; [apply list_elem_of_In; exact Hc|]. unfold row_of.
    destruct path as [|i' path].
    + left. cbn in Hn. injection Hn as ->. rewrite Hnm. f_equal. cbn. lia.
    + right. apply (IH c Hc). exists i', path, c'.
      split; [exact Hn|]. split; [exact Hnm|]. cbn. lia.
Qed.

(** X21: [print_act_tree] executes one [print] statement for every node
    below the root, in pre-order, and none for the root itself: what it
    writes is, entry by entry, the pre-order listing [rows] of the nodes
    below the root, each as its name behind [" --> "] and four spaces for
    every level below the children of the root on top of [indent].  [rows]
    holds exactly the nodes reachable by a non-empty path, at the depth the
    path gives. *)
Theorem print_act_tree_lists_descendants (t : NamedAct) (indent : nat) :
  print_act_tree t indent = map (fun r => line r.1 r.2) (rows t indent) /\
  length (print_act_tree t indent) = descendants t /\
  (forall d nm,
     In (d, nm) (rows t indent) <->
     exists i path c,
       node_at t (i :: path) = Some c /\ name_of c = nm /\
       d = indent + length path).
Proof.
  split; [apply print_act_tree_rows|]. split.
  - rewrite print_act_tree_rows, length_map. apply rows_length.
  - apply rows_nodes.
Qed.

(** ** Instances *)

Lemma StopIteration_inert_witness :
  next 2 (Wrap (always_succeed 0) [] GLast) [1]
  = (StopIteration, Wrap (always_succeed 0) [] GDone, [1]) /\
  iterator (Wrap (always_succeed 0) [] GDone) = GDone.
Proof.
  split; [reflexivity|].
  exact (proj1 (proj2 (proj2
           (StopIteration_inert 2 (Wrap (always_succeed 0) [] GLast)
              (Wrap (always_succeed 0) [] GDone) [1] [1] eq_refl)))).
Defined.

Lemma Loop_without_children_witness :
  (3 <> -1)%Z /\
  next 5 (new_Loop [] 3) ([] : Log)
  = (Yield SUCCESS, Loop [] GLast 3 (Z.max 1 3) None, []).
Proof.
  assert (H : (3 <> -1)%Z) by discriminate.
  split; [exact H|].
  exact (proj2 Loop_without_children 3%Z 0 [] H).
Defined.

Lemma Loop_passes_one_short_witness :
  always SUCCESS (always_succeed 0) /\
  drive_statuses (drive 4 3 (new_Loop [new_Wrap (always_succeed 0)] 3) [])
  = [RUN; RUN; SUCCESS].
Proof.
  assert (H : always SUCCESS (always_succeed 0)) by (intros w; reflexivity).
  split; [exact H|].
  exact (proj1 (Loop_passes_one_short (always_succeed 0) H 2 0 0 [])).
Defined.

Lemma reset_restores_loop_free_witness :
  loop_free Select_mid_run = true /\ pristine Select_mid_run = true /\
  reset (drive_act (drive 3 5 Select_mid_run [])) = Select_mid_run.
Proof.
  split; [reflexivity|]. split; [reflexivity|].
  exact (reset_restores_loop_free Select_mid_run 3 5 [] eq_refl eq_refl).
Defined.
